(** * Rejection sampler for the truncated Gaussian: embedding and properties

    Shallow embedding of [scripts/truncated_gaussian_sampler.py] and
    [scripts/MonteCarloSampler.py].

    Numbers.  Python floats are read as exact real numbers ([R]): rounding,
    overflow and NaN are outside this model, and so is the [OverflowError]
    that [**] and [math.exp] raise when a result leaves the range of a
    double (in [err] from about [|x| > 17], in [Phi] from about
    [|c| > 24]).  Statements about the absence of exceptions are therefore
    made on bounded ranges of the inputs, inside which no such overflow
    occurs.  The operations that fail in exact arithmetic keep their
    failure: [math.log] of a non-positive number and [math.sqrt] of a
    negative number raise [ValueError], and [/] by zero raises
    [ZeroDivisionError].  A name that the module never binds raises
    [NameError] when it is read.  Python integers are [nat] where the code
    only counts ([i] in [range(125)], factorials) and [Z] for the requested
    sample count [n], which the code never checks for sign.

    Randomness.  [np.random.uniform()] reads a global generator.  The state
    of that generator is the list of the values it is going to return (the
    tape); a draw pops the head.  A finite tape plays the role of fuel: a
    run that needs more draws than the tape holds ends as [Starved]. *)

From Stdlib Require Import Reals Lra Lia List ZArith.
Import ListNotations.

Open Scope R_scope.

(** ** Exceptions and results *)

Inductive exn : Set :=
| ValueError
| ZeroDivisionError
| NameError.

Inductive res (A : Type) : Type :=
| Ok (a : A)
| Raise (e : exn).

Arguments Ok {A} a.
Arguments Raise {A} e.

Definition bind {A B : Type} (m : res A) (k : A -> res B) : res B :=
  match m with
  | Ok a => k a
  | Raise e => Raise e
  end.

Notation "x <- m ;; k" := (bind m (fun x => k))
  (at level 61, m at next level, right associativity).

(** ** The Python operations the scripts use *)

(** [x / y] on floats. *)
Definition truediv (x y : R) : res R :=
  if Req_dec_T y 0 then Raise ZeroDivisionError else Ok (x / y).

Infix "//" := truediv (at level 40, left associativity).

(** [x ** k] for an exponent that is a non-negative whole number (the
    scripts only use [2.0], [i] and [(2.0*i)+1]), in exact arithmetic: the
    [OverflowError] of a result beyond the range of a double is outside
    the model, as the header says. *)
Definition float_pow (x : R) (k : nat) : R := x ^ k.

(** The names a script gets from [import math]. *)
Record MathModule : Type := {
  m_sqrt : R -> res R;
  m_log : R -> res R;
  m_exp : R -> R;
  m_pi : R;
  m_factorial : nat -> nat
}.

Definition math_sqrt (x : R) : res R :=
  if Rlt_dec x 0 then Raise ValueError else Ok (sqrt x).

Definition math_log (x : R) : res R :=
  if Rle_dec x 0 then Raise ValueError else Ok (ln x).

Definition math : MathModule := {|
  m_sqrt := math_sqrt;
  m_log := math_log;
  m_exp := exp;
  m_pi := PI;
  m_factorial := fact
|}.

(** [for i in range(k): acc = body(acc, i)], with a body that may raise. *)
Fixpoint for_range {A : Type} (body : A -> nat -> res A) (range : list nat)
    (acc : A) : res A :=
  match range with
  | [] => Ok acc
  | i :: rest => acc' <- body acc i ;; for_range body rest acc'
  end.

(** ** The outcome of a run that draws random numbers *)

Inductive outcome (A : Type) : Type :=
| Returns (a : A) (rng : list R)
| Raises (e : exn)
| Starved.

Arguments Returns {A} a rng.
Arguments Raises {A} e.
Arguments Starved {A}.

(** ** scripts/truncated_gaussian_sampler.py *)

(** One summand of the loop in [err]:
    [((-1.0)**i) * (x**((2.0*i)+1))/(math.factorial(i)*((2*i)+1))]. *)
Definition err_term (x : R) (i : nat) : res R :=
  (float_pow (-1) i * float_pow x (2 * i + 1))
    // INR (m_factorial math i * (2 * i + 1)).

Definition err (x : R) : res R :=
  err_x <- for_range (fun err_x i => t <- err_term x i ;; Ok (err_x + t))
             (seq 0 125) 0 ;;
  s <- m_sqrt math (m_pi math) ;;
  k <- 2 // s ;;
  Ok (k * err_x).

Definition Phi (x : R) : res R :=
  s <- m_sqrt math 2 ;;
  z <- x // s ;;
  e <- err z ;;
  Ok (0.5 * (1 + e)).

Definition inverse_exp (x lambda_0 : R) : res R :=
  l <- m_log math (1 - x) ;;
  (-1 * l) // lambda_0.

Definition expo (x lambda_0 : R) : R :=
  lambda_0 * m_exp math (- lambda_0 * x).

Definition phi (x : R) : res R :=
  h <- (- float_pow x 2) // 2 ;;
  s <- m_sqrt math (2 * m_pi math) ;;
  m_exp math h // s.

(** Line 36: [lambda_0 = (c + math.sqrt((c**2.0)+4.0))/2.0]. *)
Definition tuned_rate (c : R) : res R :=
  s <- m_sqrt math (float_pow c 2 + 4) ;;
  (c + s) // 2.

(** Lines 35-38: the tuning step, returning [(lambda_0, const)]. *)
Definition tune (c : R) : res (R * R) :=
  Phi_c <- Phi c ;;
  lambda_0 <- tuned_rate c ;;
  h <- (float_pow lambda_0 2 - 2 * lambda_0 * c) // 2 ;;
  s2 <- m_sqrt math (2 * m_pi math) ;;
  b <- m_exp math h // (s2 * lambda_0 * (1 - Phi_c)) ;;
  Ok (lambda_0, (1 - Phi_c) * b).

(** Line 43: [r = (phi(x+c)/(expo(x,lambda_0))*const)]. *)
Definition ratio (x c lambda_0 const : R) : res R :=
  p <- phi (x + c) ;;
  q <- p // expo x lambda_0 ;;
  Ok (q * const).

(** Lines 40-46: the [while] loop.  Each round takes two draws. *)
Fixpoint rejection_loop (n : Z) (c lambda_0 const : R) (samples rng : list R)
    {struct rng} : outcome (list R) :=
  if (Z.of_nat (length samples) <? n)%Z then
    match rng with
    | [] => Starved
    | x_inv :: rng1 =>
        match inverse_exp x_inv lambda_0 with
        | Raise e => Raises e
        | Ok x =>
            match ratio x c lambda_0 const with
            | Raise e => Raises e
            | Ok r =>
                match rng1 with
                | [] => Starved
                | coin :: rng2 =>
                    if Rlt_dec coin r
                    then rejection_loop n c lambda_0 const
                           (samples ++ [x + c]) rng2
                    else rejection_loop n c lambda_0 const samples rng2
                end
            end
        end
    end
  else Returns samples rng.

Definition truncated_gaussian_sampler (n : Z) (c : R) (rng : list R)
    : outcome (list R) :=
  match tune c with
  | Raise e => Raises e
  | Ok (lambda_0, const) => rejection_loop n c lambda_0 const [] rng
  end.

(** ** scripts/MonteCarloSampler.py

    The class file has no [import] line, yet its methods read the names
    [math] and [np].  A method therefore runs in the namespace of its
    module: reading a name looks it up there and raises [NameError] when
    the module does not bind it.  [file_namespace] is the namespace of the
    file as it is, [imported_namespace] the one it would have with the two
    [import] lines of the function-based script.  The class keeps no
    fields. *)

Module MonteCarloSampler.

Inductive t : Set := new.

Record namespace : Type := {
  ns_math : option MathModule;
  ns_np : bool
}.

Definition file_namespace : namespace :=
  {| ns_math := None; ns_np := false |}.

Definition imported_namespace : namespace :=
  {| ns_math := Some math; ns_np := true |}.

(** Reading the name [math], and the name [np]. *)
Definition load_math (g : namespace) : res MathModule :=
  match ns_math g with
  | Some m => Ok m
  | None => Raise NameError
  end.

Definition load_np (g : namespace) : res unit :=
  if ns_np g then Ok tt else Raise NameError.

Section Methods.

Variable g : namespace.

Definition err_term (x : R) (i : nat) : res R :=
  let numerator := float_pow (-1) i * float_pow x (2 * i + 1) in
  math <- load_math g ;;
  numerator // INR (m_factorial math i * (2 * i + 1)).

Definition err (self : t) (x : R) : res R :=
  err_x <- for_range (fun err_x i => t <- err_term x i ;; Ok (err_x + t))
             (seq 0 125) 0 ;;
  math <- load_math g ;;
  s <- m_sqrt math (m_pi math) ;;
  k <- 2 // s ;;
  Ok (k * err_x).

Definition Phi (self : t) (x : R) : res R :=
  math <- load_math g ;;
  s <- m_sqrt math 2 ;;
  z <- x // s ;;
  e <- err self z ;;
  Ok (0.5 * (1 + e)).

Definition inverse_exp (self : t) (x lambda_0 : R) : res R :=
  math <- load_math g ;;
  l <- m_log math (1 - x) ;;
  (-1 * l) // lambda_0.

Definition expo (self : t) (x lambda_0 : R) : res R :=
  math <- load_math g ;;
  Ok (lambda_0 * m_exp math (- lambda_0 * x)).

Definition phi (self : t) (x : R) : res R :=
  math <- load_math g ;;
  h <- (- float_pow x 2) // 2 ;;
  s <- m_sqrt math (2 * m_pi math) ;;
  m_exp math h // s.

Definition tuned_rate (self : t) (c : R) : res R :=
  math <- load_math g ;;
  s <- m_sqrt math (float_pow c 2 + 4) ;;
  (c + s) // 2.

Definition tune (self : t) (c : R) : res (R * R) :=
  Phi_c <- Phi self c ;;
  lambda_0 <- tuned_rate self c ;;
  math <- load_math g ;;
  h <- (float_pow lambda_0 2 - 2 * lambda_0 * c) // 2 ;;
  s2 <- m_sqrt math (2 * m_pi math) ;;
  b <- m_exp math h // (s2 * lambda_0 * (1 - Phi_c)) ;;
  Ok (lambda_0, (1 - Phi_c) * b).

Definition ratio (self : t) (x c lambda_0 const : R) : res R :=
  p <- phi self (x + c) ;;
  e <- expo self x lambda_0 ;;
  q <- p // e ;;
  Ok (q * const).

Fixpoint rejection_loop (self : t) (n : Z) (c lambda_0 const : R)
    (samples rng : list R) {struct rng} : outcome (list R) :=
  if (Z.of_nat (length samples) <? n)%Z then
    match load_np g with
    | Raise e => Raises e
    | Ok _ =>
        match rng with
        | [] => Starved
        | x_inv :: rng1 =>
            match inverse_exp self x_inv lambda_0 with
            | Raise e => Raises e
            | Ok x =>
                match ratio self x c lambda_0 const with
                | Raise e => Raises e
                | Ok r =>
                    match rng1 with
                    | [] => Starved
                    | coin :: rng2 =>
                        if Rlt_dec coin r
                        then rejection_loop self n c lambda_0 const
                               (samples ++ [x + c]) rng2
                        else rejection_loop self n c lambda_0 const samples
                               rng2
                    end
                end
            end
        end
    end
  else Returns samples rng.

Definition truncated_gaussian_sampler (self : t) (n : Z) (c : R)
    (rng : list R) : outcome (list R) :=
  match tune self c with
  | Raise e => Raises e
  | Ok (lambda_0, const) => rejection_loop self n c lambda_0 const [] rng
  end.

End Methods.

End MonteCarloSampler.

(** ** scripts/solve_for_lambda.py

    The script sets two module-level names, [c] and [Phi_c], and
    [rejection_func] reads them when it is called: they are the globals the
    function receives.  [np.arange(start, stop, step)] is the list of the
    [ceil((stop - start)/step)] values [start + i*step]. *)

Fixpoint for_each {A B : Type} (body : A -> B -> res A) (items : list B)
    (acc : A) : res A :=
  match items with
  | [] => Ok acc
  | i :: rest => acc' <- body acc i ;; for_each body rest acc'
  end.

Definition ceil (x : R) : Z := (1 - up (- x))%Z.

Definition np_arange (start stop step : R) : list R :=
  map (fun i => start + INR i * step)
    (seq 0 (Z.to_nat (ceil ((stop - start) / step)))).

Module solve_for_lambda.

Record globals : Type := {
  c : R;
  Phi_c : R
}.

(** Lines 5-6: [c = 0], [Phi_c = 0.5]. *)
Definition script_globals : globals := {| c := 0; Phi_c := 0.5 |}.

(** Lines 8-9. *)
Definition rejection_func (g : globals) (lambda0 : R) : res R :=
  s <- m_sqrt math (2 * m_pi math) ;;
  h <- (float_pow lambda0 2 - 2 * lambda0 * c g) // 2 ;;
  (s * lambda0 * (1 - Phi_c g)) // m_exp math h.

(** Line 12: [lambda0 = np.arange(0,2,0.01)]. *)
Definition lambda0 : list R := np_arange 0 2 0.01.

(** Lines 14-16: the loop that fills [rf_axis]. *)
Definition rf_axis (g : globals) : res (list R) :=
  for_each (fun rf_axis i => v <- rejection_func g i ;; Ok (rf_axis ++ [v]))
    lambda0 [].

End solve_for_lambda.

(** ** The formulas of the specification

    Written from the specification's text (sections 4.1 to 4.3), in total
    real arithmetic, to be compared with what the code computes. *)

Module Spec.

Definition erf (z : R) : R :=
  2 / sqrt PI *
  sum_f_R0 (fun i => (-1) ^ i * z ^ (2 * i + 1) / (INR (fact i) * INR (2 * i + 1)))
    124.

Definition Phi (x : R) : R := 0.5 * (1 + erf (x / sqrt 2)).

Definition rate (c : R) : R := (c + sqrt (c ^ 2 + 4)) / 2.

Definition b (c : R) : R :=
  exp ((rate c ^ 2 - 2 * rate c * c) / 2) / (sqrt (2 * PI) * rate c * (1 - Phi c)).

Definition normalizingConstant (c : R) : R := (1 - Phi c) * b c.

Definition expo (x rate : R) : R := rate * exp (- rate * x).

Definition phi (x : R) : R := exp (- x ^ 2 / 2) / sqrt (2 * PI).

End Spec.

(** ** Vocabulary of the statements *)

(** Draws of [np.random.uniform()] lie in the half-open unit interval. *)
Definition unit_draw (u : R) : Prop := 0 <= u < 1.

(** The candidate of line 42 and the ratio of line 43 in closed form. *)
Definition candidate (u lambda_0 : R) : R := -1 * ln (1 - u) / lambda_0.

Definition acceptance (c lambda_0 const u : R) : R :=
  Spec.phi (candidate u lambda_0 + c) / Spec.expo (candidate u lambda_0) lambda_0
  * const.

(** How many rounds of a tape accept their candidate. *)
Fixpoint accepted_rounds (c lambda_0 const : R) (rng : list R) : nat :=
  match rng with
  | u :: coin :: rest =>
      (if Rlt_dec coin (acceptance c lambda_0 const u) then 1 else 0)
      + accepted_rounds c lambda_0 const rest
  | _ => 0
  end.

(** The positive part of a summand of the series, at [q = z^2]. *)
Definition series_weight (q : R) (i : nat) : R :=
  q ^ i / (INR (fact i) * INR (2 * i + 1)).

(** The samples that the accepting rounds of a tape contribute, in tape
    order. *)
Fixpoint accepted_samples (c lambda_0 const : R) (rng : list R) : list R :=
  match rng with
  | u :: coin :: rest =>
      (if Rlt_dec coin (acceptance c lambda_0 const u)
       then [candidate u lambda_0 + c] else [])
      ++ accepted_samples c lambda_0 const rest
  | _ => []
  end.

(** The objective of [rejection_func] in closed form. *)
Definition acceptance_rate (c Phi_c lambda0 : R) : R :=
  sqrt (2 * PI) * lambda0 * (1 - Phi_c) / exp ((lambda0 ^ 2 - 2 * lambda0 * c) / 2).

(** * Properties *)

(** ** The primitive operations *)

Lemma truediv_ok (x y : R) : y <> 0 -> x // y = Ok (x / y).
Proof.
  intros Hy. unfold truediv. destruct (Req_dec_T y 0) as [E | _].
  - contradiction.
  - reflexivity.
Qed.

Lemma truediv_zero (x y : R) : y = 0 -> x // y = Raise ZeroDivisionError.
Proof.
  intros Hy. unfold truediv. destruct (Req_dec_T y 0) as [_ | N].
  - reflexivity.
  - contradiction.
Qed.

Lemma truediv_never_ValueError (x y : R) : x // y <> Raise ValueError.
Proof.
  unfold truediv. destruct (Req_dec_T y 0); discriminate.
Qed.

Lemma math_sqrt_ok (x : R) : 0 <= x -> math_sqrt x = Ok (sqrt x).
Proof.
  intros Hx. unfold math_sqrt. destruct (Rlt_dec x 0) as [L | _].
  - lra.
  - reflexivity.
Qed.

Lemma math_log_ok (x : R) : 0 < x -> math_log x = Ok (ln x).
Proof.
  intros Hx. unfold math_log. destruct (Rle_dec x 0) as [L | _].
  - lra.
  - reflexivity.
Qed.

Lemma math_log_raises (x : R) : x <= 0 -> math_log x = Raise ValueError.
Proof.
  intros Hx. unfold math_log. destruct (Rle_dec x 0) as [_ | N].
  - reflexivity.
  - contradiction.
Qed.

Lemma sqrt_2PI_pos : 0 < sqrt (2 * PI).
Proof. apply sqrt_lt_R0. pose proof PI_RGT_0. lra. Qed.

Lemma sqrt_PI_pos : 0 < sqrt PI.
Proof. apply sqrt_lt_R0. exact PI_RGT_0. Qed.

Lemma sqrt_2_pos : 0 < sqrt 2.
Proof. apply sqrt_lt_R0. lra. Qed.

Lemma for_range_app {A : Type} (body : A -> nat -> res A) (l1 l2 : list nat)
    (acc : A) :
  for_range body (l1 ++ l2) acc =
  (acc' <- for_range body l1 acc ;; for_range body l2 acc').
Proof.
  revert acc. induction l1 as [| i l1 IH]; intros acc; simpl.
  - reflexivity.
  - destruct (body acc i) as [a | e]; simpl.
    + apply IH.
    + reflexivity.
Qed.

(** ** [err], [Phi] and [phi] never raise and compute the series *)

Lemma err_term_ok (x : R) (i : nat) :
  err_term x i =
  Ok ((-1) ^ i * x ^ (2 * i + 1) / (INR (fact i) * INR (2 * i + 1))).
Proof.
  unfold err_term, float_pow. cbn [math m_factorial].
  rewrite mult_INR. apply truediv_ok.
  apply Rmult_integral_contrapositive_currified.
  - apply INR_fact_neq_0.
  - apply not_0_INR. lia.
Qed.

Lemma err_loop_ok (x : R) (k : nat) :
  for_range (fun err_x i => t <- err_term x i ;; Ok (err_x + t))
    (seq 0 (S k)) 0 =
  Ok (sum_f_R0
        (fun i => (-1) ^ i * x ^ (2 * i + 1) / (INR (fact i) * INR (2 * i + 1)))
        k).
Proof.
  induction k as [| k IH].
  - cbn [seq for_range]. rewrite err_term_ok. cbn [bind sum_f_R0].
    f_equal. apply Rplus_0_l.
  - rewrite seq_S, for_range_app, IH. cbn [bind Nat.add for_range].
    rewrite err_term_ok. reflexivity.
Qed.

Lemma err_ok (x : R) : err x = Ok (Spec.erf x).
Proof.
  unfold err. rewrite (err_loop_ok x 124). cbn [bind math m_sqrt m_pi].
  rewrite math_sqrt_ok by (pose proof PI_RGT_0; lra). cbn [bind].
  rewrite truediv_ok by (pose proof sqrt_PI_pos; lra). reflexivity.
Qed.

Lemma Phi_ok (x : R) : Phi x = Ok (Spec.Phi x).
Proof.
  unfold Phi. cbn [math m_sqrt]. rewrite math_sqrt_ok by lra. cbn [bind].
  rewrite truediv_ok by (pose proof sqrt_2_pos; lra). cbn [bind].
  rewrite err_ok. reflexivity.
Qed.

Lemma phi_ok (x : R) : phi x = Ok (Spec.phi x).
Proof.
  unfold phi, float_pow. rewrite truediv_ok by lra.
  cbn [bind math m_sqrt m_pi m_exp].
  rewrite math_sqrt_ok by (pose proof PI_RGT_0; lra). cbn [bind].
  rewrite truediv_ok by (pose proof sqrt_2PI_pos; lra). reflexivity.
Qed.

Lemma expo_spec (x lambda_0 : R) : expo x lambda_0 = Spec.expo x lambda_0.
Proof. reflexivity. Qed.

(** ** The tuning step *)

Lemma sqrt_dominates (c : R) : Rabs c < sqrt (c ^ 2 + 4).
Proof.
  assert (Hs : 0 <= sqrt (c ^ 2 + 4)) by apply sqrt_pos.
  assert (Hq : sqrt (c ^ 2 + 4) * sqrt (c ^ 2 + 4) = c ^ 2 + 4)
    by (apply sqrt_sqrt; nra).
  unfold Rabs. destruct (Rcase_abs c); nra.
Qed.

Lemma rate_pos (c : R) : 0 < Spec.rate c.
Proof.
  unfold Spec.rate. pose proof (sqrt_dominates c) as H.
  unfold Rabs in H. destruct (Rcase_abs c); lra.
Qed.

Lemma tuned_rate_ok (c : R) : tuned_rate c = Ok (Spec.rate c).
Proof.
  unfold tuned_rate, float_pow. cbn [math m_sqrt].
  rewrite math_sqrt_ok by nra. cbn [bind].
  rewrite truediv_ok by lra. reflexivity.
Qed.

Lemma tune_ok (c : R) :
  1 - Spec.Phi c <> 0 ->
  tune c = Ok (Spec.rate c, Spec.normalizingConstant c).
Proof.
  intros Htail. unfold tune, float_pow.
  rewrite Phi_ok, tuned_rate_ok. cbn [bind].
  rewrite truediv_ok by lra. cbn [bind math m_sqrt m_pi m_exp].
  rewrite math_sqrt_ok by (pose proof PI_RGT_0; lra). cbn [bind].
  rewrite truediv_ok.
  - reflexivity.
  - pose proof sqrt_2PI_pos. pose proof (rate_pos c).
    apply Rmult_integral_contrapositive_currified; [| exact Htail].
    apply Rmult_integral_contrapositive_currified; lra.
Qed.

Lemma tune_blow_up (c : R) :
  1 - Spec.Phi c = 0 -> tune c = Raise ZeroDivisionError.
Proof.
  intros Htail. unfold tune, float_pow.
  rewrite Phi_ok, tuned_rate_ok. cbn [bind].
  rewrite truediv_ok by lra. cbn [bind math m_sqrt m_pi m_exp].
  rewrite math_sqrt_ok by (pose proof PI_RGT_0; lra). cbn [bind].
  rewrite truediv_zero.
  - reflexivity.
  - rewrite Htail. ring.
Qed.

Lemma tune_inv (c lambda_0 const : R) :
  tune c = Ok (lambda_0, const) ->
  1 - Spec.Phi c <> 0 /\
  lambda_0 = Spec.rate c /\ const = Spec.normalizingConstant c.
Proof.
  intros H. destruct (Req_dec_T (1 - Spec.Phi c) 0) as [Z | NZ].
  - rewrite (tune_blow_up c Z) in H. discriminate.
  - rewrite (tune_ok c NZ) in H. injection H as <- <-. auto.
Qed.

(** With a non-zero tail mass the constant is the peak of
    [phi(x+c)/expo(x,lambda_0)], free of [Phi]. *)
Lemma normalizingConstant_closed (c : R) :
  1 - Spec.Phi c <> 0 ->
  Spec.normalizingConstant c =
  exp ((Spec.rate c ^ 2 - 2 * Spec.rate c * c) / 2)
  / (sqrt (2 * PI) * Spec.rate c).
Proof.
  intros Htail. unfold Spec.normalizingConstant, Spec.b.
  pose proof sqrt_2PI_pos. pose proof (rate_pos c).
  field. repeat split; lra.
Qed.

(** ** The series at the origin *)

Lemma erf_0 : Spec.erf 0 = 0.
Proof.
  unfold Spec.erf. rewrite sum_eq_R0.
  - ring.
  - intros i _. rewrite pow_i by lia. unfold Rdiv. ring.
Qed.

Lemma Phi_0 : Spec.Phi 0 = 1 / 2.
Proof.
  unfold Spec.Phi. replace (0 / sqrt 2) with 0 by (unfold Rdiv; ring).
  rewrite erf_0. lra.
Qed.

Lemma rate_0 : Spec.rate 0 = 1.
Proof.
  unfold Spec.rate. replace (0 ^ 2 + 4) with (2 * 2) by ring.
  rewrite sqrt_square by lra. lra.
Qed.

(** ** One round of the loop *)

Lemma inverse_exp_ok (u lambda_0 : R) :
  u < 1 -> lambda_0 <> 0 -> inverse_exp u lambda_0 = Ok (candidate u lambda_0).
Proof.
  intros Hu Hl. unfold inverse_exp. cbn [math m_log].
  rewrite math_log_ok by lra. cbn [bind]. apply truediv_ok. exact Hl.
Qed.

Lemma expo_pos (x lambda_0 : R) : 0 < lambda_0 -> 0 < Spec.expo x lambda_0.
Proof.
  intros Hl. unfold Spec.expo. apply Rmult_lt_0_compat.
  - exact Hl.
  - apply exp_pos.
Qed.

Lemma phi_pos (x : R) : 0 < Spec.phi x.
Proof.
  unfold Spec.phi. apply Rdiv_lt_0_compat.
  - apply exp_pos.
  - exact sqrt_2PI_pos.
Qed.

Lemma ratio_ok (x c lambda_0 const : R) :
  0 < lambda_0 ->
  ratio x c lambda_0 const =
  Ok (Spec.phi (x + c) / Spec.expo x lambda_0 * const).
Proof.
  intros Hl. unfold ratio. rewrite phi_ok. cbn [bind].
  rewrite expo_spec, truediv_ok.
  - reflexivity.
  - pose proof (expo_pos x lambda_0 Hl). lra.
Qed.

Lemma candidate_nonneg (u lambda_0 : R) :
  unit_draw u -> 0 < lambda_0 -> 0 <= candidate u lambda_0.
Proof.
  intros [Hu0 Hu1] Hl. unfold candidate.
  assert (Hln : ln (1 - u) <= 0).
  { destruct (Req_dec_T u 0) as [-> | Hne].
    - rewrite Rminus_0_r, ln_1. lra.
    - rewrite <- ln_1. left. apply ln_increasing; lra. }
  apply Rmult_le_pos.
  - lra.
  - left. apply Rinv_0_lt_compat. exact Hl.
Qed.

Lemma inverse_exp_no_ValueError (u lambda_0 : R) :
  u < 1 -> inverse_exp u lambda_0 <> Raise ValueError.
Proof.
  intros Hu. unfold inverse_exp. cbn [math m_log].
  rewrite math_log_ok by lra. cbn [bind]. apply truediv_never_ValueError.
Qed.

Lemma ratio_no_ValueError (x c lambda_0 const : R) :
  ratio x c lambda_0 const <> Raise ValueError.
Proof.
  unfold ratio. rewrite phi_ok. cbn [bind].
  pose proof (truediv_never_ValueError (Spec.phi (x + c)) (expo x lambda_0)).
  destruct (_ // expo x lambda_0); cbn [bind]; congruence.
Qed.

(** ** The loop *)

Lemma rejection_loop_eq (n : Z) (c lambda_0 const : R) (samples rng : list R) :
  rejection_loop n c lambda_0 const samples rng =
  if (Z.of_nat (length samples) <? n)%Z then
    match rng with
    | [] => Starved
    | x_inv :: rng1 =>
        match inverse_exp x_inv lambda_0 with
        | Raise e => Raises e
        | Ok x =>
            match ratio x c lambda_0 const with
            | Raise e => Raises e
            | Ok r =>
                match rng1 with
                | [] => Starved
                | coin :: rng2 =>
                    if Rlt_dec coin r
                    then rejection_loop n c lambda_0 const
                           (samples ++ [x + c]) rng2
                    else rejection_loop n c lambda_0 const samples rng2
                end
            end
        end
    end
  else Returns samples rng.
Proof. destruct rng; reflexivity. Qed.

(** A round of the loop on well-formed input, by cases on the coin. *)
Lemma rejection_loop_round (n : Z) (c lambda_0 const : R)
    (samples : list R) (u coin : R) (rng : list R) :
  (Z.of_nat (length samples) < n)%Z -> u < 1 -> 0 < lambda_0 ->
  rejection_loop n c lambda_0 const samples (u :: coin :: rng) =
  if Rlt_dec coin (acceptance c lambda_0 const u)
  then rejection_loop n c lambda_0 const
         (samples ++ [candidate u lambda_0 + c]) rng
  else rejection_loop n c lambda_0 const samples rng.
Proof.
  intros Hlen Hu Hl. rewrite rejection_loop_eq.
  apply Z.ltb_lt in Hlen. rewrite Hlen.
  rewrite inverse_exp_ok by lra. rewrite ratio_ok by exact Hl.
  reflexivity.
Qed.

Lemma rejection_loop_done (n : Z) (c lambda_0 const : R)
    (samples rng : list R) :
  (n <= Z.of_nat (length samples))%Z ->
  rejection_loop n c lambda_0 const samples rng = Returns samples rng.
Proof.
  intros Hlen. rewrite rejection_loop_eq.
  apply Z.ltb_ge in Hlen. rewrite Hlen. reflexivity.
Qed.

Lemma list_pair_ind (P : list R -> Prop) :
  P [] -> (forall a, P [a]) -> (forall a b l, P l -> P (a :: b :: l)) ->
  forall l, P l.
Proof.
  intros H0 H1 H2 l.
  assert (H : P l /\ forall a, P (a :: l)).
  { induction l as [| b l [IH1 IH2]].
    - split; [exact H0 | exact H1].
    - split; [apply IH2 | intros a; apply H2; exact IH1]. }
  apply H.
Qed.

Section Loop.

Variable n : Z.
Variables c lambda_0 const : R.

Local Abbreviation loop := (rejection_loop n c lambda_0 const).

(** Whatever the draws are, a loop entered with at most [n] samples can
    only return with exactly [n] of them. *)
Lemma rejection_loop_length (rng : list R) :
  forall samples out rng',
    (Z.of_nat (length samples) <= n)%Z ->
    loop samples rng = Returns out rng' ->
    Z.of_nat (length out) = n.
Proof.
  induction rng as [| a | a coin rng IH] using list_pair_ind;
    intros samples out rng' Hlen Hrun; rewrite rejection_loop_eq in Hrun;
    destruct (Z.ltb_spec (Z.of_nat (length samples)) n) as [Hlt | Hge];
    try (injection Hrun as <- <-; lia); try discriminate.
  - destruct (inverse_exp a lambda_0) as [x |]; [| discriminate].
    destruct (ratio x c lambda_0 const); discriminate.
  - destruct (inverse_exp a lambda_0) as [x |]; [| discriminate].
    destruct (ratio x c lambda_0 const) as [r |]; [| discriminate].
    destruct (Rlt_dec coin r).
    + apply (IH (samples ++ [x + c]) out rng'); [| exact Hrun].
      rewrite length_app. cbn [length]. lia.
    + apply (IH samples out rng'); assumption.
Qed.

(** The log of line 24 is never the operation that fails when the draws
    come from the half-open unit interval. *)
Lemma rejection_loop_no_ValueError (rng : list R) :
  Forall unit_draw rng ->
  forall samples, loop samples rng <> Raises ValueError.
Proof.
  induction rng as [| a | a coin rng IH] using list_pair_ind;
    intros Hdraws samples; rewrite rejection_loop_eq;
    destruct (Z.of_nat (length samples) <? n)%Z; try discriminate;
    inversion Hdraws as [| ? ? [_ Ha] Hrest]; subst;
    pose proof (inverse_exp_no_ValueError a lambda_0 Ha) as Hx;
    destruct (inverse_exp a lambda_0) as [x | e]; try congruence;
    pose proof (ratio_no_ValueError x c lambda_0 const) as Hr;
    destruct (ratio x c lambda_0 const) as [r | e]; try congruence.
  inversion Hrest as [| ? ? _ Hrng]; subst.
  destruct (Rlt_dec coin r); apply IH; exact Hrng.
Qed.

Hypothesis rate_positive : 0 < lambda_0.

(** Every value the loop appends is at least [c]. *)
Lemma rejection_loop_support (rng : list R) :
  Forall unit_draw rng ->
  forall samples out rng',
    Forall (fun s => c <= s) samples ->
    loop samples rng = Returns out rng' ->
    Forall (fun s => c <= s) out.
Proof.
  induction rng as [| a | a coin rng IH] using list_pair_ind;
    intros Hdraws samples out rng' Hinv Hrun;
    destruct (Z.lt_ge_cases (Z.of_nat (length samples)) n) as [Hlt | Hge];
    try (rewrite rejection_loop_done in Hrun by exact Hge;
         injection Hrun as <- <-; exact Hinv).
  - rewrite rejection_loop_eq in Hrun. apply Z.ltb_lt in Hlt.
    rewrite Hlt in Hrun. discriminate.
  - rewrite rejection_loop_eq in Hrun. apply Z.ltb_lt in Hlt.
    rewrite Hlt in Hrun. destruct (inverse_exp a lambda_0) as [x |];
      [| discriminate].
    destruct (ratio x c lambda_0 const); discriminate.
  - inversion Hdraws as [| ? ? Ha Hrest]; subst.
    inversion Hrest as [| ? ? _ Hrng]; subst.
    rewrite rejection_loop_round in Hrun
      by (try assumption; destruct Ha; lra).
    destruct (Rlt_dec coin (acceptance c lambda_0 const a)).
    + apply (IH Hrng (samples ++ [candidate a lambda_0 + c]) out rng');
        [| exact Hrun].
      apply Forall_app. split; [exact Hinv |].
      constructor; [| constructor].
      pose proof (candidate_nonneg a lambda_0 Ha rate_positive). lra.
    + apply (IH Hrng samples out rng'); assumption.
Qed.


End Loop.

(** ** The series on the negative side: [Phi] stays at or below one half *)

Lemma alternating_sum_lower (a : nat -> R) :
  (forall i, a (S i) <= a i) ->
  forall m, a (2 * m)%nat <= sum_f_R0 (fun i => (-1) ^ i * a i) (2 * m).
Proof.
  intros Hdec m. induction m as [| m IH].
  - simpl. lra.
  - replace (2 * S m)%nat with (S (S (2 * m))) by lia.
    cbn [sum_f_R0]. rewrite pow_1_odd.
    replace (S (S (2 * m))) with (2 * S m)%nat by lia. rewrite pow_1_even.
    replace (2 * S m)%nat with (S (S (2 * m))) by lia.
    pose proof (Hdec (2 * m)%nat). pose proof (Hdec (S (2 * m))). lra.
Qed.

Lemma Rdiv_le_one (x d : R) : 0 < d -> x <= d -> x / d <= 1.
Proof.
  intros Hd Hx. apply (Rmult_le_reg_r d); [exact Hd |].
  unfold Rdiv. rewrite Rmult_assoc, Rinv_l by lra. lra.
Qed.

Lemma series_weight_decreasing (q : R) (i : nat) :
  0 <= q <= 3 -> series_weight q (S i) <= series_weight q i.
Proof.
  intros [Hq0 Hq3]. unfold series_weight.
  assert (HF : 0 < INR (fact i)) by apply INR_fact_lt_0.
  assert (Hp : 0 <= q ^ i) by (apply pow_le; exact Hq0).
  assert (HI : INR i = 0 \/ 1 <= INR i).
  { destruct i as [| i].
    - left. reflexivity.
    - right. rewrite S_INR. pose proof (pos_INR i). lra. }
  rewrite fact_simpl. rewrite !mult_INR, !plus_INR, !mult_INR, S_INR.
  change (INR 2) with 2. change (INR 1) with 1.
  set (I := INR i) in *. set (F := INR (fact i)) in *. set (p := q ^ i) in *.
  cbn [pow]. fold p.
  replace (q * p / ((I + 1) * F * (2 * (I + 1) + 1)))
    with (p / (F * (2 * I + 1)) * (q * (2 * I + 1) / ((I + 1) * (2 * I + 3)))).
  2:{ field. repeat split; try lra. all: destruct HI; nra. }
  rewrite <- (Rmult_1_r (p / (F * (2 * I + 1)))) at 2.
  apply Rmult_le_compat_l.
  - apply Rmult_le_pos; [exact Hp |]. left. apply Rinv_0_lt_compat.
    destruct HI; nra.
  - apply Rdiv_le_one; destruct HI; nra.
Qed.

Lemma series_factor (z : R) (N : nat) :
  sum_f_R0
    (fun i => (-1) ^ i * z ^ (2 * i + 1) / (INR (fact i) * INR (2 * i + 1))) N =
  z * sum_f_R0 (fun i => (-1) ^ i * series_weight (z ^ 2) i) N.
Proof.
  rewrite scal_sum. apply sum_eq. intros i _. unfold series_weight.
  rewrite pow_add, pow_mult. unfold Rdiv. ring.
Qed.

Lemma erf_nonpos (z : R) : z <= 0 -> z ^ 2 <= 3 -> Spec.erf z <= 0.
Proof.
  intros Hz Hq. unfold Spec.erf. rewrite series_factor.
  pose proof (alternating_sum_lower (series_weight (z ^ 2))
    (fun i => series_weight_decreasing (z ^ 2) i
                (conj (pow2_ge_0 z) Hq)) 62) as Hsum.
  change (2 * 62)%nat with 124%nat in Hsum.
  assert (Hw : 0 <= series_weight (z ^ 2) 124).
  { unfold series_weight. apply Rmult_le_pos.
    - apply pow_le. apply pow2_ge_0.
    - left. apply Rinv_0_lt_compat. apply Rmult_lt_0_compat.
      + apply INR_fact_lt_0.
      + apply lt_0_INR. lia. }
  assert (Hk : 0 < 2 / sqrt PI)
    by (apply Rdiv_lt_0_compat; [lra | exact sqrt_PI_pos]).
  set (S := sum_f_R0 _ 124) in *. set (K := 2 / sqrt PI) in *.
  assert (HzS : z * S <= 0) by nra. nra.
Qed.

Lemma Phi_le_half (c : R) : c <= 0 -> c ^ 2 <= 6 -> Spec.Phi c <= 1 / 2.
Proof.
  intros Hc Hq. unfold Spec.Phi.
  assert (He : Spec.erf (c / sqrt 2) <= 0).
  { pose proof sqrt_2_pos as Hs.
    assert (Hss : sqrt 2 * sqrt 2 = 2) by (apply sqrt_sqrt; lra).
    apply erf_nonpos.
    - assert (Hi : 0 < / sqrt 2) by (apply Rinv_0_lt_compat; exact Hs).
      unfold Rdiv. nra.
    - replace ((c / sqrt 2) ^ 2) with (c ^ 2 / 2).
      + lra.
      + unfold Rdiv. rewrite Rpow_mult_distr, pow_inv.
        replace (sqrt 2 ^ 2) with 2 by (cbn [pow]; lra). reflexivity. }
  lra.
Qed.

(** ** The ratio of line 43 in closed form *)

Lemma sqrt_2PI_sqr : sqrt (2 * PI) * sqrt (2 * PI) = 2 * PI.
Proof. apply sqrt_sqrt. pose proof PI_RGT_0. lra. Qed.

(** With [const] the peak value [exp((l^2 - 2*l*c)/2) / (sqrt(2*pi)*l)],
    the product formed on line 43 is a Gaussian bump over [2*pi*l^2]. *)
Lemma line43_closed (x c l : R) :
  0 < l ->
  Spec.phi (x + c) / Spec.expo x l
  * (exp ((l ^ 2 - 2 * l * c) / 2) / (sqrt (2 * PI) * l)) =
  exp (- (x + c - l) ^ 2 / 2 + l ^ 2 - 2 * l * c) / (2 * PI * l ^ 2).
Proof.
  intros Hl. unfold Spec.phi, Spec.expo.
  pose proof sqrt_2PI_pos as Hs. pose proof sqrt_2PI_sqr as Hss.
  pose proof PI_RGT_0 as Hpi.
  replace (- (x + c - l) ^ 2 / 2 + l ^ 2 - 2 * l * c)
    with (- (x + c) ^ 2 / 2 + (l ^ 2 - 2 * l * c) / 2 + - (- l * x))
    by field.
  rewrite !exp_plus, exp_Ropp.
  pose proof (exp_pos (- l * x)) as He.
  set (s := sqrt (2 * PI)) in *.
  replace (2 * PI * l ^ 2) with (s * s * l ^ 2) by (rewrite Hss; ring).
  field. repeat split; lra.
Qed.

(** The quotient [phi(x+c)/expo(x,l)] never exceeds that peak value: the
    peak is the envelope constant of the rejection scheme. *)
Lemma envelope_bound (x c l : R) :
  0 < l ->
  Spec.phi (x + c) / Spec.expo x l <=
  exp ((l ^ 2 - 2 * l * c) / 2) / (sqrt (2 * PI) * l).
Proof.
  intros Hl. unfold Spec.phi, Spec.expo.
  pose proof sqrt_2PI_pos as Hs. pose proof (exp_pos (- l * x)) as He.
  replace (exp (- (x + c) ^ 2 / 2) / sqrt (2 * PI) / (l * exp (- l * x)))
    with (exp (- (x + c) ^ 2 / 2 + - (- l * x)) / (sqrt (2 * PI) * l)).
  2:{ rewrite exp_plus, exp_Ropp. field. repeat split; lra. }
  apply Rmult_le_compat_r.
  - left. apply Rinv_0_lt_compat. apply Rmult_lt_0_compat; lra.
  - assert (Hsq : 0 <= (x + c - l) ^ 2) by apply pow2_ge_0.
    destruct (Rle_lt_or_eq_dec (- (x + c) ^ 2 / 2 + - (- l * x))
                ((l ^ 2 - 2 * l * c) / 2)) as [Hlt | Heq].
    + nra.
    + left. apply exp_increasing. exact Hlt.
    + rewrite Heq. lra.
Qed.

(** Dividing by the constant, as a rejection sampler does, gives a
    probability. *)
Lemma quotient_by_const_le_1 (x c : R) :
  1 - Spec.Phi c <> 0 ->
  0 < Spec.phi (x + c) / Spec.expo x (Spec.rate c) / Spec.normalizingConstant c
    <= 1.
Proof.
  intros Htail. rewrite (normalizingConstant_closed c Htail).
  pose proof (rate_pos c) as Hl.
  pose proof (envelope_bound x c (Spec.rate c) Hl) as Hb.
  set (K := exp _ / _) in *.
  assert (HK : 0 < K).
  { unfold K. apply Rdiv_lt_0_compat; [apply exp_pos |].
    apply Rmult_lt_0_compat; [exact sqrt_2PI_pos | exact Hl]. }
  assert (Hq : 0 < Spec.phi (x + c) / Spec.expo x (Spec.rate c)).
  { apply Rdiv_lt_0_compat; [apply phi_pos | apply expo_pos; exact Hl]. }
  split.
  - apply Rdiv_lt_0_compat; assumption.
  - apply Rdiv_le_one; assumption.
Qed.

(** ** The truncation point [-3/2] *)

Lemma rate_at_minus_three_halves : Spec.rate (-3 / 2) = 1 / 2.
Proof.
  unfold Spec.rate. replace ((-3 / 2) ^ 2 + 4) with (5 / 2 * (5 / 2)) by field.
  rewrite sqrt_square by lra. lra.
Qed.

Lemma tail_at_minus_three_halves : 1 - Spec.Phi (-3 / 2) <> 0.
Proof.
  pose proof (Phi_le_half (-3 / 2)) as H.
  assert (Spec.Phi (-3 / 2) <= 1 / 2) by (apply H; lra). lra.
Qed.

Lemma candidate_two : candidate (1 - exp (-1)) (1 / 2) = 2.
Proof.
  unfold candidate. replace (1 - (1 - exp (-1))) with (exp (-1)) by ring.
  rewrite ln_exp. field.
Qed.

Lemma unit_draw_one_minus_inv_e : unit_draw (1 - exp (-1)).
Proof.
  unfold unit_draw. pose proof (exp_pos (-1)) as Hp.
  assert (Hlt : exp (-1) < 1).
  { rewrite <- exp_0. apply exp_increasing. lra. }
  lra.
Qed.

Lemma acceptance_at_minus_three_halves :
  Spec.phi (2 + -3 / 2) / Spec.expo 2 (1 / 2) * Spec.normalizingConstant (-3 / 2)
  = 2 * exp (7 / 4) / PI.
Proof.
  rewrite (normalizingConstant_closed _ tail_at_minus_three_halves).
  rewrite rate_at_minus_three_halves.
  rewrite line43_closed by lra. pose proof PI_RGT_0.
  replace (- (2 + -3 / 2 - 1 / 2) ^ 2 / 2 + (1 / 2) ^ 2 - 2 * (1 / 2) * (-3 / 2))
    with (7 / 4) by field.
  field. lra.
Qed.

Lemma two_exp_over_PI_gt_1 : 1 < 2 * exp (7 / 4) / PI.
Proof.
  pose proof PI_RGT_0 as Hpi. pose proof PI_4 as Hpi4.
  assert (He : 1 + 7 / 4 < exp (7 / 4)) by (apply exp_ineq1; lra).
  apply (Rmult_lt_reg_r PI); [exact Hpi |].
  unfold Rdiv. rewrite Rmult_assoc, Rinv_l by lra. lra.
Qed.

(** ** The class methods against the module functions

    With the two imports in place the methods are the module functions. *)

Lemma class_err_same (self : MonteCarloSampler.t) (x : R) :
  MonteCarloSampler.err MonteCarloSampler.imported_namespace self x = err x.
Proof. reflexivity. Qed.

Lemma class_Phi_same (self : MonteCarloSampler.t) (x : R) :
  MonteCarloSampler.Phi MonteCarloSampler.imported_namespace self x = Phi x.
Proof. reflexivity. Qed.

Lemma class_inverse_exp_same (self : MonteCarloSampler.t) (x lambda_0 : R) :
  MonteCarloSampler.inverse_exp MonteCarloSampler.imported_namespace self x
    lambda_0 =
  inverse_exp x lambda_0.
Proof. reflexivity. Qed.

Lemma class_expo_same (self : MonteCarloSampler.t) (x lambda_0 : R) :
  MonteCarloSampler.expo MonteCarloSampler.imported_namespace self x lambda_0 =
  Ok (expo x lambda_0).
Proof. reflexivity. Qed.

Lemma class_phi_same (self : MonteCarloSampler.t) (x : R) :
  MonteCarloSampler.phi MonteCarloSampler.imported_namespace self x = phi x.
Proof. reflexivity. Qed.

Lemma class_tune_same (self : MonteCarloSampler.t) (c : R) :
  MonteCarloSampler.tune MonteCarloSampler.imported_namespace self c = tune c.
Proof. reflexivity. Qed.

Lemma class_ratio_same (self : MonteCarloSampler.t) (x c lambda_0 const : R) :
  MonteCarloSampler.ratio MonteCarloSampler.imported_namespace self x c
    lambda_0 const =
  ratio x c lambda_0 const.
Proof. reflexivity. Qed.

Lemma class_loop_same (self : MonteCarloSampler.t) (n : Z)
    (c lambda_0 const : R) (rng : list R) :
  forall samples,
    MonteCarloSampler.rejection_loop MonteCarloSampler.imported_namespace self
      n c lambda_0 const samples rng =
    rejection_loop n c lambda_0 const samples rng.
Proof.
  induction rng as [| a | a coin rng IH] using list_pair_ind; intros samples;
    rewrite rejection_loop_eq; cbn [MonteCarloSampler.rejection_loop];
    destruct (Z.of_nat (length samples) <? n)%Z; try reflexivity;
    cbn [MonteCarloSampler.load_np MonteCarloSampler.imported_namespace
           MonteCarloSampler.ns_np];
    rewrite class_inverse_exp_same;
    destruct (inverse_exp a lambda_0) as [x |]; try reflexivity;
    rewrite class_ratio_same;
    destruct (ratio x c lambda_0 const) as [r |]; try reflexivity.
  destruct (Rlt_dec coin r); apply IH.
Qed.

(** With the imports of the function-based script, the method and the
    function have the same outcome on every [n], [c] and tape. *)
Lemma class_sampler_same_when_imported (self : MonteCarloSampler.t) (n : Z)
    (c : R) (rng : list R) :
  MonteCarloSampler.truncated_gaussian_sampler
    MonteCarloSampler.imported_namespace self n c rng =
  truncated_gaussian_sampler n c rng.
Proof.
  unfold MonteCarloSampler.truncated_gaussian_sampler,
    truncated_gaussian_sampler.
  rewrite class_tune_same.
  destruct (tune c) as [[lambda_0 const] | e]; [| reflexivity].
  apply class_loop_same.
Qed.

(** In the file as it is, the first statement of the method already
    fails: [self.Phi(c)] reads [math]. *)
Lemma class_Phi_NameError (self : MonteCarloSampler.t) (x : R) :
  MonteCarloSampler.Phi MonteCarloSampler.file_namespace self x =
  Raise NameError.
Proof. reflexivity. Qed.

Lemma class_sampler_NameError (self : MonteCarloSampler.t) (n : Z) (c : R)
    (rng : list R) :
  MonteCarloSampler.truncated_gaussian_sampler
    MonteCarloSampler.file_namespace self n c rng =
  Raises NameError.
Proof. reflexivity. Qed.

(** ** A run on a concrete tape *)

Lemma normalizingConstant_pos (c : R) :
  1 - Spec.Phi c <> 0 -> 0 < Spec.normalizingConstant c.
Proof.
  intros Htail. rewrite (normalizingConstant_closed c Htail).
  apply Rdiv_lt_0_compat; [apply exp_pos |].
  apply Rmult_lt_0_compat; [exact sqrt_2PI_pos | apply rate_pos].
Qed.

Lemma acceptance_pos (c lambda_0 const u : R) :
  0 < lambda_0 -> 0 < const -> 0 < acceptance c lambda_0 const u.
Proof.
  intros Hl Hk. unfold acceptance. apply Rmult_lt_0_compat; [| exact Hk].
  apply Rdiv_lt_0_compat; [apply phi_pos | apply expo_pos; exact Hl].
Qed.

Lemma tail_at_0 : 1 - Spec.Phi 0 <> 0.
Proof. rewrite Phi_0. lra. Qed.

Lemma tune_0 : tune 0 = Ok (1, Spec.normalizingConstant 0).
Proof. rewrite (tune_ok 0 tail_at_0), rate_0. reflexivity. Qed.

Lemma unit_draw_0 : unit_draw 0.
Proof. unfold unit_draw. lra. Qed.

Lemma accepted_rounds_example :
  accepted_rounds 0 1 (Spec.normalizingConstant 0) [0; 0] = 1%nat.
Proof.
  cbn [accepted_rounds].
  destruct (Rlt_dec 0 (acceptance 0 1 (Spec.normalizingConstant 0) 0))
    as [_ | N].
  - reflexivity.
  - exfalso. apply N. apply acceptance_pos; [lra |].
    apply normalizingConstant_pos. exact tail_at_0.
Qed.

(** One sample at [c = 0] from the tape [0; 0]: the candidate is accepted. *)
Lemma sampler_run_example :
  truncated_gaussian_sampler 1 0 [0; 0] = Returns [candidate 0 1 + 0] [].
Proof.
  unfold truncated_gaussian_sampler. rewrite tune_0.
  rewrite rejection_loop_round by (cbn [length]; first [lia | lra]).
  destruct (Rlt_dec 0 (acceptance 0 1 (Spec.normalizingConstant 0) 0))
    as [_ | N].
  - apply rejection_loop_done. cbn [length app]. lia.
  - exfalso. apply N. apply acceptance_pos; [lra |].
    apply normalizingConstant_pos. exact tail_at_0.
Qed.

(** * The claims *)

(** C1, evaluated on the code at [c = -3/2].  The tuner returns the rate
    [1/2]; the draw [u = 1 - exp(-1)] lies in the unit interval and gives
    the candidate [x = 2]; the ratio that line 43 computes for it,
    [phi(x+c)/expo(x,rate)*const], is greater than 1.  The claim asks for a
    ratio of at most 1: the code multiplies by the constant where the
    scheme divides by it ([quotient_by_const_le_1]). *)
Theorem acceptance_ratio_exceeds_one :
  exists const u r,
    tune (-3 / 2) = Ok (1 / 2, const) /\
    unit_draw u /\ inverse_exp u (1 / 2) = Ok 2 /\
    ratio 2 (-3 / 2) (1 / 2) const = Ok r /\
    1 < r.
Proof.
  exists (Spec.normalizingConstant (-3 / 2)), (1 - exp (-1)),
    (2 * exp (7 / 4) / PI).
  split; [| split; [| split; [| split]]].
  - rewrite (tune_ok _ tail_at_minus_three_halves).
    rewrite rate_at_minus_three_halves. reflexivity.
  - exact unit_draw_one_minus_inv_e.
  - rewrite inverse_exp_ok.
    + rewrite candidate_two. reflexivity.
    + destruct unit_draw_one_minus_inv_e. lra.
    + lra.
  - rewrite ratio_ok by lra. rewrite acceptance_at_minus_three_halves.
    reflexivity.
  - exact two_exp_over_PI_gt_1.
Qed.



(** C3: when the draws lie in [0,1), every element of the sequence that
    [truncated_gaussian_sampler n c] returns is at least [c]: an accepted
    sample is [x + c] with [x = -ln(1-u)/rate >= 0]. *)
Theorem sampler_support (n : Z) (c : R) (rng samples rng' : list R) :
  Forall unit_draw rng ->
  truncated_gaussian_sampler n c rng = Returns samples rng' ->
  Forall (fun s => c <= s) samples.
Proof.
  intros Hdraws Hrun. unfold truncated_gaussian_sampler in Hrun.
  destruct (tune c) as [[lambda_0 const] | e] eqn:Htune; [| discriminate].
  apply tune_inv in Htune. destruct Htune as (_ & -> & _).
  apply (rejection_loop_support n c (Spec.rate c) const (rate_pos c) rng
           Hdraws [] samples rng'); [constructor | exact Hrun].
Qed.

Lemma sampler_support_witness :
  Forall unit_draw [0; 0] /\
  truncated_gaussian_sampler 1 0 [0; 0] = Returns [candidate 0 1 + 0] [] /\
  Forall (fun s => 0 <= s) [candidate 0 1 + 0].
Proof.
  assert (Hdraws : Forall unit_draw [0; 0])
    by (repeat constructor; apply unit_draw_0).
  split; [exact Hdraws |]. split; [exact sampler_run_example |].
  exact (sampler_support 1 0 [0; 0] [candidate 0 1 + 0] [] Hdraws
           sampler_run_example).
Defined.

(** C4: wherever the tail mass [1 - Phi(c)] it divides by is non-zero, the
    tuning step of lines 35-38 computes the specification's formulas:
    [Phi_c = Phi(c)], [rate = (c + sqrt(c^2+4))/2] and
    [normalizingConstant = (1 - Phi_c) * b] with
    [b = exp((rate^2 - 2*rate*c)/2) / (sqrt(2*pi) * rate * (1 - Phi_c))]. *)
Theorem tune_matches_spec (c : R) :
  1 - Spec.Phi c <> 0 ->
  Phi c = Ok (Spec.Phi c) /\
  tuned_rate c = Ok (Spec.rate c) /\
  tune c = Ok (Spec.rate c, (1 - Spec.Phi c) * Spec.b c).
Proof.
  intros Htail. split; [apply Phi_ok |]. split; [apply tuned_rate_ok |].
  exact (tune_ok c Htail).
Qed.

Lemma tune_matches_spec_witness :
  1 - Spec.Phi 0 <> 0 /\
  tune 0 = Ok (Spec.rate 0, (1 - Spec.Phi 0) * Spec.b 0).
Proof.
  split; [exact tail_at_0 |].
  exact (proj2 (proj2 (tune_matches_spec 0 tail_at_0))).
Defined.


(** C6: for a draw [u] in [0,1) the argument [1 - u] of the logarithm in
    [inverse_exp] lies in (0,1], so [math.log] returns and [inverse_exp]
    does not raise [ValueError]; within [0,1] that error occurs exactly
    at [u = 1]. *)
Theorem log_argument_positive (u lambda_0 : R) :
  0 <= u <= 1 ->
  (u < 1 ->
   0 < 1 - u <= 1 /\
   m_log math (1 - u) = Ok (ln (1 - u)) /\
   inverse_exp u lambda_0 <> Raise ValueError) /\
  (inverse_exp u lambda_0 = Raise ValueError <-> u = 1).
Proof.
  intros [Hu0 Hu1]. split.
  - intros Hlt. split; [lra |]. split.
    + cbn [math m_log]. apply math_log_ok. lra.
    + apply inverse_exp_no_ValueError. exact Hlt.
  - split.
    + intros Hraise. destruct (Rle_lt_or_eq_dec u 1 Hu1) as [Hlt | Heq].
      * exfalso. exact (inverse_exp_no_ValueError u lambda_0 Hlt Hraise).
      * exact Heq.
    + intros ->. unfold inverse_exp. cbn [math m_log].
      rewrite math_log_raises by lra. reflexivity.
Qed.

Lemma log_argument_positive_witness :
  0 <= 0 <= 1 /\ inverse_exp 0 1 <> Raise ValueError.
Proof.
  assert (H : 0 <= 0 <= 1) by lra.
  split; [exact H |].
  destruct (log_argument_positive 0 1 H) as [Hdef _].
  apply Hdef. lra.
Defined.



(** C8: at [c = 0] the rate of line 36 is exactly 1, the 125-term series
    of [err] is 0 at the origin, and [Phi(0)] is exactly one half. *)
Theorem tune_at_zero :
  tuned_rate 0 = Ok 1 /\
  err 0 = Ok 0 /\
  Phi 0 = Ok (1 / 2) /\
  exists const, tune 0 = Ok (1, const).
Proof.
  split; [| split; [| split]].
  - rewrite tuned_rate_ok, rate_0. reflexivity.
  - rewrite err_ok, erf_0. reflexivity.
  - rewrite Phi_ok, Phi_0. reflexivity.
  - exists (Spec.normalizingConstant 0). exact tune_0.
Qed.

(** C9, evaluated on the code.  The claim asks for identical sample
    sequences from the two implementations.  [MonteCarloSampler.py] has no
    [import] line, so the method raises [NameError] on every call, for every
    [n], [c] and tape, before any draw; the function on the same input
    [n = 1], [c = 0], draws [0; 0] returns one sample.  With the two imports
    of the function-based script the outcomes coincide
    ([class_sampler_same_when_imported]). *)
Theorem class_sampler_raises_NameError :
  (forall self n c rng,
      MonteCarloSampler.truncated_gaussian_sampler
        MonteCarloSampler.file_namespace self n c rng =
      Raises NameError) /\
  MonteCarloSampler.truncated_gaussian_sampler
    MonteCarloSampler.file_namespace MonteCarloSampler.new 1 0 [0; 0] <>
  truncated_gaussian_sampler 1 0 [0; 0].
Proof.
  split; [exact class_sampler_NameError |].
  rewrite class_sampler_NameError, sampler_run_example. discriminate.
Qed.



(** * Further properties of the code *)


(** ** The loop, round by round *)

Lemma unit_draw_cons2 (a coin : R) (rng : list R) :
  Forall unit_draw (a :: coin :: rng) ->
  unit_draw a /\ a < 1 /\ Forall unit_draw rng.
Proof.
  intros H. inversion H as [| ? ? Ha Hrest]; subst.
  inversion Hrest as [| ? ? _ Hrng]; subst.
  destruct Ha as [H0 H1]. repeat split; assumption.
Qed.

Lemma accepted_samples_length (c lambda_0 const : R) (rng : list R) :
  length (accepted_samples c lambda_0 const rng) =
  accepted_rounds c lambda_0 const rng.
Proof.
  induction rng as [| a | a coin rng IH] using list_pair_ind;
    try reflexivity.
  cbn [accepted_samples accepted_rounds]. rewrite length_app, IH.
  destruct (Rlt_dec coin (acceptance c lambda_0 const a)); reflexivity.
Qed.

Section LoopRounds.

Variable n : Z.
Variables c lambda_0 const : R.
Hypothesis rate_positive : 0 < lambda_0.

Local Abbreviation loop := (rejection_loop n c lambda_0 const).
Local Abbreviation accepted := (accepted_samples c lambda_0 const).

(** On draws from the unit interval the loop raises nothing. *)
Lemma rejection_loop_no_exception (rng : list R) :
  Forall unit_draw rng ->
  forall samples e, loop samples rng <> Raises e.
Proof.
  induction rng as [| a | a coin rng IH] using list_pair_ind;
    intros Hdraws samples e;
    destruct (Z.lt_ge_cases (Z.of_nat (length samples)) n) as [Hlt | Hge];
    try (rewrite rejection_loop_done by exact Hge; discriminate).
  - rewrite rejection_loop_eq. apply Z.ltb_lt in Hlt. rewrite Hlt.
    discriminate.
  - inversion Hdraws as [| ? ? [_ Ha] _]; subst.
    rewrite rejection_loop_eq. apply Z.ltb_lt in Hlt. rewrite Hlt.
    rewrite inverse_exp_ok by lra. rewrite ratio_ok by exact rate_positive.
    discriminate.
  - destruct (unit_draw_cons2 a coin rng Hdraws) as (_ & Ha & Hrng).
    rewrite rejection_loop_round by assumption.
    destruct (Rlt_dec coin (acceptance c lambda_0 const a)); apply IH;
      exact Hrng.
Qed.

(** What a returning loop hands back: the samples it started with, then
    the accepted candidates of the tape, in tape order, up to [n]. *)
Lemma rejection_loop_firstn (rng : list R) :
  Forall unit_draw rng ->
  forall samples out rng',
    (Z.of_nat (length samples) <= n)%Z ->
    loop samples rng = Returns out rng' ->
    out = samples ++ firstn (Z.to_nat n - length samples) (accepted rng).
Proof.
  induction rng as [| a | a coin rng IH] using list_pair_ind;
    intros Hdraws samples out rng' Hlen Hrun;
    destruct (Z.lt_ge_cases (Z.of_nat (length samples)) n) as [Hlt | Hge];
    try (rewrite rejection_loop_done in Hrun by exact Hge;
         injection Hrun as <- <-;
         replace (Z.to_nat n - length samples)%nat with 0%nat by lia;
         cbn [firstn]; rewrite app_nil_r; reflexivity).
  - rewrite rejection_loop_eq in Hrun. apply Z.ltb_lt in Hlt.
    rewrite Hlt in Hrun. discriminate.
  - rewrite rejection_loop_eq in Hrun. apply Z.ltb_lt in Hlt.
    rewrite Hlt in Hrun.
    destruct (inverse_exp a lambda_0) as [x |]; [| discriminate].
    destruct (ratio x c lambda_0 const); discriminate.
  - destruct (unit_draw_cons2 a coin rng Hdraws) as (_ & Ha & Hrng).
    rewrite rejection_loop_round in Hrun by assumption.
    cbn [accepted_samples].
    destruct (Rlt_dec coin (acceptance c lambda_0 const a)).
    + rewrite (IH Hrng _ out rng') with (2 := Hrun)
        by (rewrite length_app; cbn [length]; lia).
      rewrite length_app. cbn [length].
      replace (Z.to_nat n - length samples)%nat
        with (S (Z.to_nat n - (length samples + 1)))%nat by lia.
      cbn [app firstn]. rewrite <- app_assoc. reflexivity.
    + cbn [app]. apply (IH Hrng samples out rng'); assumption.
Qed.

(** The draws after the last round are left on the tape: the tape splits
    into the rounds that ran, two draws each, and the remainder; the
    samples added are the accepted candidates of the rounds that ran. *)
Lemma rejection_loop_consumed (rng : list R) :
  Forall unit_draw rng ->
  forall samples out rng',
    loop samples rng = Returns out rng' ->
    exists used,
      rng = used ++ rng' /\ Nat.Even (length used) /\
      out = samples ++ accepted used.
Proof.
  induction rng as [| a | a coin rng IH] using list_pair_ind;
    intros Hdraws samples out rng' Hrun;
    destruct (Z.lt_ge_cases (Z.of_nat (length samples)) n) as [Hlt | Hge];
    try (rewrite rejection_loop_done in Hrun by exact Hge;
         injection Hrun as <- <-; exists [];
         split; [reflexivity |]; split; [exists 0%nat; reflexivity |];
         cbn [accepted_samples]; rewrite app_nil_r; reflexivity).
  - rewrite rejection_loop_eq in Hrun. apply Z.ltb_lt in Hlt.
    rewrite Hlt in Hrun. discriminate.
  - rewrite rejection_loop_eq in Hrun. apply Z.ltb_lt in Hlt.
    rewrite Hlt in Hrun.
    destruct (inverse_exp a lambda_0) as [x |]; [| discriminate].
    destruct (ratio x c lambda_0 const); discriminate.
  - destruct (unit_draw_cons2 a coin rng Hdraws) as (_ & Ha & Hrng).
    rewrite rejection_loop_round in Hrun by assumption.
    destruct (Rlt_dec coin (acceptance c lambda_0 const a)) as [Hacc | Hrej].
    + destruct (IH Hrng _ out rng' Hrun) as (used & -> & [k Hk] & ->).
      exists (a :: coin :: used). split; [reflexivity |]. split.
      * exists (S k). cbn [length]. lia.
      * cbn [accepted_samples].
        destruct (Rlt_dec coin (acceptance c lambda_0 const a));
          [| contradiction].
        rewrite <- app_assoc. reflexivity.
    + destruct (IH Hrng _ out rng' Hrun) as (used & -> & [k Hk] & ->).
      exists (a :: coin :: used). split; [reflexivity |]. split.
      * exists (S k). cbn [length]. lia.
      * cbn [accepted_samples].
        destruct (Rlt_dec coin (acceptance c lambda_0 const a));
          [contradiction |].
        reflexivity.
Qed.

(** Draws appended behind the tape do not change a returning run. *)
Lemma rejection_loop_frame (rng extra : list R) :
  forall samples out rng',
    loop samples rng = Returns out rng' ->
    loop samples (rng ++ extra) = Returns out (rng' ++ extra).
Proof.
  induction rng as [| a | a coin rng IH] using list_pair_ind;
    intros samples out rng' Hrun;
    destruct (Z.lt_ge_cases (Z.of_nat (length samples)) n) as [Hlt | Hge];
    try (rewrite rejection_loop_done in Hrun by exact Hge;
         injection Hrun as <- <-;
         rewrite rejection_loop_done by exact Hge; reflexivity).
  - rewrite rejection_loop_eq in Hrun. apply Z.ltb_lt in Hlt.
    rewrite Hlt in Hrun. discriminate.
  - rewrite rejection_loop_eq in Hrun. apply Z.ltb_lt in Hlt.
    rewrite Hlt in Hrun.
    destruct (inverse_exp a lambda_0) as [x |]; [| discriminate].
    destruct (ratio x c lambda_0 const); discriminate.
  - rewrite rejection_loop_eq in Hrun. cbn [app].
    rewrite rejection_loop_eq. apply Z.ltb_lt in Hlt.
    rewrite Hlt in Hrun |- *.
    destruct (inverse_exp a lambda_0) as [x |]; [| discriminate].
    destruct (ratio x c lambda_0 const) as [r |]; [| discriminate].
    destruct (Rlt_dec coin r); apply IH; exact Hrun.
Qed.

End LoopRounds.


Lemma accepted_rounds_bound (c lambda_0 const : R) (rng : list R) :
  (2 * accepted_rounds c lambda_0 const rng <= length rng)%nat.
Proof.
  induction rng as [| a | a coin rng IH] using list_pair_ind;
    cbn [accepted_rounds length]; try lia.
  destruct (Rlt_dec coin (acceptance c lambda_0 const a)); lia.
Qed.

(** Asking for more samples resumes the loop where the shorter run
    stopped. *)
Lemma rejection_loop_resume (n m : Z) (c lambda_0 const : R) (rng : list R) :
  (n <= m)%Z ->
  forall samples out rng',
    rejection_loop n c lambda_0 const samples rng = Returns out rng' ->
    rejection_loop m c lambda_0 const samples rng =
    rejection_loop m c lambda_0 const out rng'.
Proof.
  intros Hnm.
  induction rng as [| a | a coin rng IH] using list_pair_ind;
    intros samples out rng' Hrun;
    destruct (Z.lt_ge_cases (Z.of_nat (length samples)) n) as [Hlt | Hge];
    try (rewrite rejection_loop_done in Hrun by exact Hge;
         injection Hrun as <- <-; reflexivity).
  - rewrite rejection_loop_eq in Hrun. apply Z.ltb_lt in Hlt.
    rewrite Hlt in Hrun. discriminate.
  - rewrite rejection_loop_eq in Hrun. apply Z.ltb_lt in Hlt.
    rewrite Hlt in Hrun.
    destruct (inverse_exp a lambda_0) as [x |]; [| discriminate].
    destruct (ratio x c lambda_0 const); discriminate.
  - rewrite rejection_loop_eq in Hrun.
    rewrite (rejection_loop_eq m c lambda_0 const samples).
    assert (Hm : (Z.of_nat (length samples) <? m)%Z = true)
      by (apply Z.ltb_lt; lia).
    apply Z.ltb_lt in Hlt. rewrite Hlt in Hrun. rewrite Hm.
    destruct (inverse_exp a lambda_0) as [x |]; [| discriminate].
    destruct (ratio x c lambda_0 const) as [r |]; [| discriminate].
    destruct (Rlt_dec coin r); apply IH; exact Hrun.
Qed.

(** X1: for a truncation point in [-20, 20] and draws from [0,1), a call
    ends in one of three ways only: it returns, it is still waiting for an
    accepting round when the tape ends, or the tuning step raised
    [ZeroDivisionError] because [Phi(c)] is exactly 1.  The loop itself
    raises nothing. *)
Theorem sampler_outcomes (n : Z) (c : R) (rng : list R) :
  -20 <= c <= 20 ->
  Forall unit_draw rng ->
  (exists samples rng', truncated_gaussian_sampler n c rng = Returns samples rng')
  \/ truncated_gaussian_sampler n c rng = Starved
  \/ (truncated_gaussian_sampler n c rng = Raises ZeroDivisionError
      /\ Phi c = Ok 1).
Proof.
  intros _ Hdraws. unfold truncated_gaussian_sampler.
  destruct (Req_dec_T (1 - Spec.Phi c) 0) as [Hz | Hnz].
  - right. right. rewrite (tune_blow_up c Hz). split; [reflexivity |].
    rewrite Phi_ok. f_equal. lra.
  - rewrite (tune_ok c Hnz).
    pose proof (rejection_loop_no_exception n c (Spec.rate c)
                  (Spec.normalizingConstant c) (rate_pos c) rng Hdraws [])
      as Hno.
    destruct (rejection_loop n c (Spec.rate c) (Spec.normalizingConstant c)
                [] rng) as [out rng' | e |].
    + left. eauto.
    + exfalso. exact (Hno e eq_refl).
    + right. left. reflexivity.
Qed.

Lemma sampler_outcomes_witness :
  -20 <= 0 <= 20 /\
  Forall unit_draw [0; 0] /\
  ((exists samples rng',
       truncated_gaussian_sampler 1 0 [0; 0] = Returns samples rng')
   \/ truncated_gaussian_sampler 1 0 [0; 0] = Starved
   \/ (truncated_gaussian_sampler 1 0 [0; 0] = Raises ZeroDivisionError
       /\ Phi 0 = Ok 1)).
Proof.
  assert (Hc : -20 <= 0 <= 20) by lra.
  assert (Hdraws : Forall unit_draw [0; 0])
    by (repeat constructor; apply unit_draw_0).
  split; [exact Hc |]. split; [exact Hdraws |].
  exact (sampler_outcomes 1 0 [0; 0] Hc Hdraws).
Defined.

(** X2: the sequence a call returns is made of the accepted candidates
    [x + c], in the order of their rounds: it is the first [n] of them on the
    tape, and all of them on the part of the tape the call consumed. *)
Theorem sampler_returns_accepted (n : Z) (c lambda_0 const : R)
    (rng samples rng' : list R) :
  (0 <= n)%Z ->
  tune c = Ok (lambda_0, const) ->
  Forall unit_draw rng ->
  truncated_gaussian_sampler n c rng = Returns samples rng' ->
  samples = firstn (Z.to_nat n) (accepted_samples c lambda_0 const rng) /\
  exists used,
    rng = used ++ rng' /\ samples = accepted_samples c lambda_0 const used.
Proof.
  intros Hn Htune Hdraws Hrun. unfold truncated_gaussian_sampler in Hrun.
  rewrite Htune in Hrun. apply tune_inv in Htune.
  destruct Htune as (_ & -> & _). pose proof (rate_pos c) as Hl. split.
  - rewrite (rejection_loop_firstn n c _ const Hl rng Hdraws [] samples rng')
      by (cbn [length]; first [lia | exact Hrun]).
    cbn [app length]. rewrite Nat.sub_0_r. reflexivity.
  - destruct (rejection_loop_consumed n c _ const Hl rng Hdraws [] samples rng'
                Hrun) as (used & Hsplit & _ & Hout).
    exists used. split; assumption.
Qed.

Lemma sampler_returns_accepted_witness :
  (0 <= 1)%Z /\
  tune 0 = Ok (1, Spec.normalizingConstant 0) /\
  Forall unit_draw [0; 0] /\
  truncated_gaussian_sampler 1 0 [0; 0] = Returns [candidate 0 1 + 0] [] /\
  [candidate 0 1 + 0] =
  firstn 1 (accepted_samples 0 1 (Spec.normalizingConstant 0) [0; 0]).
Proof.
  assert (Hn : (0 <= 1)%Z) by lia.
  assert (Hdraws : Forall unit_draw [0; 0])
    by (repeat constructor; apply unit_draw_0).
  repeat split; try assumption; try exact tune_0; try exact sampler_run_example.
  exact (proj1 (sampler_returns_accepted 1 0 1 (Spec.normalizingConstant 0)
                  [0; 0] [candidate 0 1 + 0] [] Hn tune_0 Hdraws
                  sampler_run_example)).
Defined.

(** X3: a call that returns [n >= 0] samples has consumed an even
    number of draws, two per round, and at least [2*n] of them. *)
Theorem sampler_draw_count (n : Z) (c : R) (rng samples rng' : list R) :
  (0 <= n)%Z ->
  Forall unit_draw rng ->
  truncated_gaussian_sampler n c rng = Returns samples rng' ->
  exists rounds,
    length rng = (2 * rounds + length rng')%nat /\ (n <= Z.of_nat rounds)%Z.
Proof.
  intros Hn Hdraws Hrun.
  unfold truncated_gaussian_sampler in Hrun.
  destruct (tune c) as [[lambda_0 const] | e] eqn:Htune; [| discriminate].
  apply tune_inv in Htune. destruct Htune as (_ & -> & _).
  assert (Hlen : Z.of_nat (length samples) = n).
  { apply (rejection_loop_length n c (Spec.rate c) const rng [] samples rng');
      [cbn [length]; lia | exact Hrun]. }
  destruct (rejection_loop_consumed n c _ const (rate_pos c) rng Hdraws []
              samples rng' Hrun) as (used & -> & [k Hk] & Hout).
  exists k. rewrite length_app. split; [lia |].
  cbn [app] in Hout. rewrite Hout, accepted_samples_length in Hlen.
  pose proof (accepted_rounds_bound c (Spec.rate c) const used). lia.
Qed.

Lemma sampler_draw_count_witness :
  (0 <= 1)%Z /\ Forall unit_draw [0; 0] /\
  exists rounds,
    length [0; 0] = (2 * rounds + length (@nil R))%nat /\
    (1 <= Z.of_nat rounds)%Z.
Proof.
  assert (Hn : (0 <= 1)%Z) by lia.
  assert (Hdraws : Forall unit_draw [0; 0])
    by (repeat constructor; apply unit_draw_0).
  split; [exact Hn |]. split; [exact Hdraws |].
  exact (sampler_draw_count 1 0 [0; 0] [candidate 0 1 + 0] [] Hn Hdraws
           sampler_run_example).
Defined.


Lemma accepts_draw_0 :
  0 < acceptance 0 1 (Spec.normalizingConstant 0) 0.
Proof.
  apply acceptance_pos; [lra |].
  apply normalizingConstant_pos. exact tail_at_0.
Qed.

(** Four draws at [c = 0]: the call for one sample stops after the first
    round, the call for two samples runs both rounds. *)
Lemma sampler_run_one_of_two :
  truncated_gaussian_sampler 1 0 [0; 0; 0; 0] =
  Returns [candidate 0 1 + 0] [0; 0].
Proof.
  unfold truncated_gaussian_sampler. rewrite tune_0.
  rewrite rejection_loop_round by (cbn [length]; first [lia | lra]).
  destruct (Rlt_dec 0 (acceptance 0 1 (Spec.normalizingConstant 0) 0))
    as [_ | N]; [| exfalso; exact (N accepts_draw_0)].
  apply rejection_loop_done. cbn [length app]. lia.
Qed.

Lemma sampler_run_two :
  truncated_gaussian_sampler 2 0 [0; 0; 0; 0] =
  Returns [candidate 0 1 + 0; candidate 0 1 + 0] [].
Proof.
  unfold truncated_gaussian_sampler. rewrite tune_0.
  rewrite rejection_loop_round by (cbn [length]; first [lia | lra]).
  destruct (Rlt_dec 0 (acceptance 0 1 (Spec.normalizingConstant 0) 0))
    as [_ | N]; [| exfalso; exact (N accepts_draw_0)].
  rewrite rejection_loop_round by (cbn [length app]; first [lia | lra]).
  destruct (Rlt_dec 0 (acceptance 0 1 (Spec.normalizingConstant 0) 0))
    as [_ | N]; [| exfalso; exact (N accepts_draw_0)].
  apply rejection_loop_done. cbn [length app]. lia.
Qed.

(** X4: asking for [m >= n] samples on the same tape is the loop for
    [m] resumed from the samples and the tape that the call for [n] left. *)
Theorem sampler_resume (n m : Z) (c lambda_0 const : R)
    (rng samples rng' : list R) :
  (n <= m)%Z ->
  tune c = Ok (lambda_0, const) ->
  truncated_gaussian_sampler n c rng = Returns samples rng' ->
  truncated_gaussian_sampler m c rng =
  rejection_loop m c lambda_0 const samples rng'.
Proof.
  intros Hnm Htune Hrun. unfold truncated_gaussian_sampler in *.
  rewrite Htune in *.
  exact (rejection_loop_resume n m c lambda_0 const rng Hnm [] samples rng'
           Hrun).
Qed.

Lemma sampler_resume_witness :
  (1 <= 2)%Z /\
  truncated_gaussian_sampler 2 0 [0; 0] =
  rejection_loop 2 0 1 (Spec.normalizingConstant 0) [candidate 0 1 + 0] [].
Proof.
  assert (Hnm : (1 <= 2)%Z) by lia.
  split; [exact Hnm |].
  exact (sampler_resume 1 2 0 1 (Spec.normalizingConstant 0) [0; 0]
           [candidate 0 1 + 0] [] Hnm tune_0 sampler_run_example).
Defined.

(** X5: for [n <= m] on the same tape, the samples returned for [n] are
    a prefix of those returned for [m], and the call for [m] consumes the
    draws of the call for [n] first. *)
Theorem sampler_prefix (n m : Z) (c : R)
    (rng samples_n rng_n samples_m rng_m : list R) :
  (n <= m)%Z ->
  Forall unit_draw rng ->
  truncated_gaussian_sampler n c rng = Returns samples_n rng_n ->
  truncated_gaussian_sampler m c rng = Returns samples_m rng_m ->
  exists more used,
    samples_m = samples_n ++ more /\ rng_n = used ++ rng_m.
Proof.
  intros Hnm Hdraws Hn Hm.
  assert (Htune : exists lambda_0 const, tune c = Ok (lambda_0, const)).
  { unfold truncated_gaussian_sampler in Hn.
    destruct (tune c) as [[lambda_0 const] | e]; [eauto | discriminate]. }
  destruct Htune as (lambda_0 & const & Htune).
  unfold truncated_gaussian_sampler in Hn, Hm. rewrite Htune in Hn, Hm.
  rewrite (rejection_loop_resume n m c lambda_0 const rng Hnm [] samples_n rng_n
             Hn) in Hm.
  apply tune_inv in Htune. destruct Htune as (_ & -> & _).
  pose proof (rate_pos c) as Hl.
  destruct (rejection_loop_consumed n c _ const Hl rng Hdraws [] samples_n rng_n
              Hn) as (used_n & -> & _ & _).
  apply Forall_app in Hdraws. destruct Hdraws as [_ Hrest].
  destruct (rejection_loop_consumed m c _ const Hl rng_n Hrest samples_n
              samples_m rng_m Hm) as (used & Hsplit & _ & Hout).
  exists (accepted_samples c (Spec.rate c) const used), used.
  split; assumption.
Qed.

Lemma sampler_prefix_witness :
  (1 <= 2)%Z /\ Forall unit_draw [0; 0; 0; 0] /\
  truncated_gaussian_sampler 1 0 [0; 0; 0; 0] =
    Returns [candidate 0 1 + 0] [0; 0] /\
  truncated_gaussian_sampler 2 0 [0; 0; 0; 0] =
    Returns [candidate 0 1 + 0; candidate 0 1 + 0] [] /\
  exists more used,
    [candidate 0 1 + 0; candidate 0 1 + 0] = [candidate 0 1 + 0] ++ more /\
    [0; 0] = used ++ [].
Proof.
  assert (Hnm : (1 <= 2)%Z) by lia.
  assert (Hdraws : Forall unit_draw [0; 0; 0; 0])
    by (repeat constructor; apply unit_draw_0).
  split; [exact Hnm |]. split; [exact Hdraws |].
  split; [exact sampler_run_one_of_two |].
  split; [exact sampler_run_two |].
  exact (sampler_prefix 1 2 0 [0; 0; 0; 0]
           [candidate 0 1 + 0] [0; 0]
           [candidate 0 1 + 0; candidate 0 1 + 0] []
           Hnm Hdraws sampler_run_one_of_two sampler_run_two).
Defined.

(** X6: draws lying behind the ones a returning call consumed have no
    influence: with more draws appended to the tape the call returns the same
    samples and leaves the appended draws untouched. *)
Theorem sampler_frame (n : Z) (c : R) (rng extra samples rng' : list R) :
  truncated_gaussian_sampler n c rng = Returns samples rng' ->
  truncated_gaussian_sampler n c (rng ++ extra) =
  Returns samples (rng' ++ extra).
Proof.
  unfold truncated_gaussian_sampler.
  destruct (tune c) as [[lambda_0 const] | e]; [| discriminate].
  apply rejection_loop_frame.
Qed.

Lemma sampler_frame_witness :
  truncated_gaussian_sampler 1 0 [0; 0] = Returns [candidate 0 1 + 0] [] /\
  truncated_gaussian_sampler 1 0 ([0; 0] ++ [1 / 2; 1 / 3]) =
  Returns [candidate 0 1 + 0] ([] ++ [1 / 2; 1 / 3]).
Proof.
  split; [exact sampler_run_example |].
  exact (sampler_frame 1 0 [0; 0] [1 / 2; 1 / 3] [candidate 0 1 + 0] []
           sampler_run_example).
Defined.

(** X7: the loop never returns short.  When the tape holds fewer than
    [n] accepting rounds, the call uses it up and is still waiting. *)
Theorem sampler_starved (n : Z) (c lambda_0 const : R) (rng : list R) :
  tune c = Ok (lambda_0, const) ->
  Forall unit_draw rng ->
  (Z.of_nat (accepted_rounds c lambda_0 const rng) < n)%Z ->
  truncated_gaussian_sampler n c rng = Starved.
Proof.
  intros Htune Hdraws Hfew. unfold truncated_gaussian_sampler.
  rewrite Htune. apply tune_inv in Htune. destruct Htune as (_ & -> & _).
  pose proof (rate_pos c) as Hl.
  destruct (rejection_loop n c (Spec.rate c) const [] rng)
    as [samples rng' | e |] eqn:Hrun.
  - exfalso.
    assert (Hn : (0 <= n)%Z) by lia.
    assert (Hlen : Z.of_nat (length samples) = n).
    { apply (rejection_loop_length n c (Spec.rate c) const rng [] samples rng');
        [cbn [length]; lia | exact Hrun]. }
    rewrite (rejection_loop_firstn n c _ const Hl rng Hdraws [] samples rng')
      in Hlen by (cbn [length]; first [lia | exact Hrun]).
    cbn [app] in Hlen.
    rewrite length_firstn, accepted_samples_length in Hlen. lia.
  - exfalso.
    exact (rejection_loop_no_exception n c _ const Hl rng Hdraws [] e Hrun).
  - reflexivity.
Qed.

Lemma sampler_starved_witness :
  tune 0 = Ok (1, Spec.normalizingConstant 0) /\
  Forall unit_draw [0; 0] /\
  (Z.of_nat (accepted_rounds 0 1 (Spec.normalizingConstant 0) [0; 0])%R
   < 2)%Z /\
  truncated_gaussian_sampler 2 0 [0; 0] = Starved.
Proof.
  assert (Hdraws : Forall unit_draw [0; 0])
    by (repeat constructor; apply unit_draw_0).
  assert (Hfew : (Z.of_nat (accepted_rounds 0 1 (Spec.normalizingConstant 0)
                              [0; 0])%R < 2)%Z)
    by (rewrite accepted_rounds_example; lia).
  repeat split; try assumption; try exact tune_0.
  exact (sampler_starved 2 0 1 (Spec.normalizingConstant 0) [0; 0] tune_0
           Hdraws Hfew).
Defined.


(** ** The tuned rate and the constant *)

Lemma rate_quadratic (c : R) : Spec.rate c * Spec.rate c = c * Spec.rate c + 1.
Proof.
  unfold Spec.rate.
  assert (Hq : sqrt (c ^ 2 + 4) * sqrt (c ^ 2 + 4) = c ^ 2 + 4)
    by (apply sqrt_sqrt; nra).
  set (s := sqrt (c ^ 2 + 4)) in *. nra.
Qed.

Lemma PI_gt_3 : 3 < PI.
Proof. pose proof PI2_3_2. lra. Qed.

(** X8: the rate of line 36 is the positive root of
    [l^2 = c*l + 1]; it is larger than [c], and the rate for [-c] is its
    reciprocal. *)
Theorem tuned_rate_root (c : R) :
  exists l,
    tuned_rate c = Ok l /\
    l * l = c * l + 1 /\ c < l /\
    tuned_rate (- c) = Ok (1 / l) /\
    forall l', 0 < l' -> l' * l' = c * l' + 1 -> l' = l.
Proof.
  exists (Spec.rate c). pose proof (rate_pos c) as Hl.
  pose proof (rate_quadratic c) as Hq.
  split; [apply tuned_rate_ok |]. split; [exact Hq |]. split; [nra |]. split.
  - rewrite tuned_rate_ok. f_equal.
    apply (Rmult_eq_reg_r (Spec.rate c)); [| lra].
    unfold Rdiv. rewrite Rmult_1_l, Rinv_l by lra.
    unfold Spec.rate.
    replace ((- c) ^ 2 + 4) with (c ^ 2 + 4) by ring.
    assert (Hs : sqrt (c ^ 2 + 4) * sqrt (c ^ 2 + 4) = c ^ 2 + 4)
      by (apply sqrt_sqrt; nra).
    replace ((- c + sqrt (c ^ 2 + 4)) / 2 * ((c + sqrt (c ^ 2 + 4)) / 2))
      with ((sqrt (c ^ 2 + 4) * sqrt (c ^ 2 + 4) - c ^ 2) / 4) by field.
    rewrite Hs. field.
  - intros l' Hl' Hq'.
    assert (Hgap : 0 < Spec.rate c - c) by nra.
    assert (Hprod : (l' - Spec.rate c) * (l' + Spec.rate c - c) = 0) by nra.
    destruct (Rmult_integral _ _ Hprod); lra.
Qed.

Lemma tuned_ratio_pos (x c : R) :
  1 - Spec.Phi c <> 0 ->
  0 < Spec.phi (x + c) / Spec.expo x (Spec.rate c)
      * Spec.normalizingConstant c.
Proof.
  intros Htail. pose proof (rate_pos c) as Hl.
  apply Rmult_lt_0_compat.
  - apply Rdiv_lt_0_compat; [apply phi_pos | apply expo_pos; exact Hl].
  - apply normalizingConstant_pos. exact Htail.
Qed.

(** X9: with tuned parameters the ratio of line 43 is computed without
    error and is strictly positive, for every candidate [x]. *)
Theorem ratio_positive (x c lambda_0 const : R) :
  tune c = Ok (lambda_0, const) ->
  exists r, ratio x c lambda_0 const = Ok r /\ 0 < r.
Proof.
  intros Htune. apply tune_inv in Htune. destruct Htune as (Htail & -> & ->).
  rewrite ratio_ok by apply rate_pos.
  eexists. split; [reflexivity |]. apply tuned_ratio_pos. exact Htail.
Qed.

Lemma ratio_positive_witness :
  tune 0 = Ok (1, Spec.normalizingConstant 0) /\
  exists r, ratio 2 0 1 (Spec.normalizingConstant 0) = Ok r /\ 0 < r.
Proof.
  split; [exact tune_0 |].
  exact (ratio_positive 2 0 1 (Spec.normalizingConstant 0) tune_0).
Defined.

(** X10: for a truncation point [c >= 0] the ratio of line 43 lies in
    (0, 1/2] for every candidate [x]. *)
Theorem ratio_at_most_half (x c lambda_0 const : R) :
  0 <= c ->
  tune c = Ok (lambda_0, const) ->
  exists r, ratio x c lambda_0 const = Ok r /\ 0 < r <= 1 / 2.
Proof.
  intros Hc Htune.
  apply tune_inv in Htune. destruct Htune as (Htail & -> & ->).
  pose proof (rate_pos c) as Hl. pose proof (rate_quadratic c) as Hq.
  rewrite ratio_ok by exact Hl.
  eexists. split; [reflexivity |]. split; [apply tuned_ratio_pos; exact Htail |].
  rewrite (normalizingConstant_closed c Htail).
  rewrite line43_closed by exact Hl.
  set (l := Spec.rate c) in *.
  assert (Hl1 : 1 <= l ^ 2) by nra.
  assert (Hexp : exp (- (x + c - l) ^ 2 / 2 + l ^ 2 - 2 * l * c) <= 3).
  { apply Rle_trans with (exp 1); [| exact exp_le_3].
    assert (Hsq : 0 <= (x + c - l) ^ 2) by apply pow2_ge_0.
    destruct (Rle_lt_or_eq_dec (- (x + c - l) ^ 2 / 2 + l ^ 2 - 2 * l * c) 1)
      as [Hlt | Heq].
    - nra.
    - left. apply exp_increasing. exact Hlt.
    - rewrite Heq. lra. }
  pose proof PI_gt_3 as Hpi.
  apply (Rmult_le_reg_r (2 * PI * l ^ 2)); [nra |].
  unfold Rdiv at 1. rewrite Rmult_assoc, Rinv_l by nra. nra.
Qed.

Lemma ratio_at_most_half_witness :
  0 <= 0 /\
  exists r, ratio 2 0 1 (Spec.normalizingConstant 0) = Ok r /\ 0 < r <= 1 / 2.
Proof.
  assert (Hc : 0 <= 0) by lra.
  split; [exact Hc |].
  exact (ratio_at_most_half 2 0 1 (Spec.normalizingConstant 0) Hc tune_0).
Defined.

(** X11: the constant of line 38 is the largest value of
    [phi(x+c)/expo(x,lambda_0)] over all [x]; it is reached at
    [x = lambda_0 - c], a positive candidate. *)
Theorem const_is_peak (c lambda_0 const : R) :
  tune c = Ok (lambda_0, const) ->
  (forall x, exists p, phi (x + c) = Ok p /\ p / expo x lambda_0 <= const) /\
  0 < lambda_0 - c /\
  exists p, phi (lambda_0 - c + c) = Ok p /\
            p / expo (lambda_0 - c) lambda_0 = const.
Proof.
  intros Htune. apply tune_inv in Htune. destruct Htune as (Htail & -> & ->).
  pose proof (rate_pos c) as Hl. pose proof (rate_quadratic c) as Hq.
  rewrite (normalizingConstant_closed c Htail).
  split; [| split].
  - intros x. exists (Spec.phi (x + c)). split; [apply phi_ok |].
    rewrite expo_spec. apply envelope_bound. exact Hl.
  - nra.
  - exists (Spec.phi (Spec.rate c - c + c)). split; [apply phi_ok |].
    rewrite expo_spec. unfold Spec.phi, Spec.expo.
    set (l := Spec.rate c) in *.
    pose proof sqrt_2PI_pos as Hs. pose proof (exp_pos (- l * (l - c))) as He.
    replace ((l ^ 2 - 2 * l * c) / 2)
      with (- (l - c + c) ^ 2 / 2 + - (- l * (l - c))) by field.
    rewrite exp_plus, exp_Ropp. field. repeat split; lra.
Qed.

Lemma const_is_peak_witness :
  tune 0 = Ok (1, Spec.normalizingConstant 0) /\ 0 < 1 - 0.
Proof.
  split; [exact tune_0 |].
  exact (proj1 (proj2 (const_is_peak 0 1 (Spec.normalizingConstant 0) tune_0))).
Defined.


(** ** The series: symmetry and range near the origin *)

Lemma erf_odd (z : R) : Spec.erf (- z) = - Spec.erf z.
Proof.
  unfold Spec.erf. rewrite !series_factor.
  replace ((- z) ^ 2) with (z ^ 2) by ring. ring.
Qed.

Lemma Phi_complement (x : R) : Spec.Phi (- x) = 1 - Spec.Phi x.
Proof.
  unfold Spec.Phi. replace (- x / sqrt 2) with (- (x / sqrt 2))
    by (unfold Rdiv; ring).
  rewrite erf_odd. lra.
Qed.

Lemma alternating_sum_upper (a : nat -> R) :
  (forall i, a (S i) <= a i) ->
  forall m, sum_f_R0 (fun i => (-1) ^ i * a i) (2 * m) <= a 0%nat.
Proof.
  intros Hdec m. induction m as [| m IH].
  - simpl. lra.
  - replace (2 * S m)%nat with (S (S (2 * m))) by lia.
    cbn [sum_f_R0]. rewrite pow_1_odd.
    replace (S (S (2 * m))) with (2 * S m)%nat by lia. rewrite pow_1_even.
    replace (2 * S m)%nat with (S (S (2 * m))) by lia.
    pose proof (Hdec (S (2 * m))). lra.
Qed.

Lemma erf_upper (z : R) : 0 <= z -> z ^ 2 <= 3 -> Spec.erf z <= 2 / sqrt PI * z.
Proof.
  intros Hz Hq. unfold Spec.erf. rewrite series_factor.
  pose proof (alternating_sum_upper (series_weight (z ^ 2))
    (fun i => series_weight_decreasing (z ^ 2) i
                (conj (pow2_ge_0 z) Hq)) 62) as Hsum.
  change (2 * 62)%nat with 124%nat in Hsum.
  assert (Hw : series_weight (z ^ 2) 0 = 1).
  { unfold series_weight. simpl. field. }
  rewrite Hw in Hsum.
  assert (Hk : 0 < 2 / sqrt PI)
    by (apply Rdiv_lt_0_compat; [lra | exact sqrt_PI_pos]).
  set (S := sum_f_R0 _ 124) in *. set (K := 2 / sqrt PI) in *.
  assert (HzS : z * S <= z) by nra. nra.
Qed.


Lemma Phi_upper_unit (c : R) : 0 <= c <= 1 -> Spec.Phi c < 1.
Proof.
  intros [Hc0 Hc1]. unfold Spec.Phi.
  pose proof sqrt_2_pos as H2. pose proof sqrt_PI_pos as Hp.
  assert (H22 : sqrt 2 * sqrt 2 = 2) by (apply sqrt_sqrt; lra).
  assert (Hpp : sqrt PI * sqrt PI = PI)
    by (apply sqrt_sqrt; pose proof PI_RGT_0; lra).
  assert (Hz0 : 0 <= c / sqrt 2).
  { apply Rmult_le_pos; [exact Hc0 |]. left. apply Rinv_0_lt_compat. exact H2. }
  assert (Hzq : (c / sqrt 2) ^ 2 = c ^ 2 / 2).
  { unfold Rdiv. rewrite Rpow_mult_distr, pow_inv.
    replace (sqrt 2 ^ 2) with 2 by (cbn [pow]; lra). reflexivity. }
  pose proof (erf_upper (c / sqrt 2) Hz0) as Hup.
  rewrite Hzq in Hup. specialize (Hup ltac:(nra)).
  assert (Hlt : 2 / sqrt PI * (c / sqrt 2) < 1).
  { pose proof PI_gt_3 as Hpi.
    assert (Hprod : 2 < sqrt PI * sqrt 2) by nra.
    replace (2 / sqrt PI * (c / sqrt 2)) with (2 * c / (sqrt PI * sqrt 2))
      by (field; lra).
    apply (Rmult_lt_reg_r (sqrt PI * sqrt 2)); [nra |].
    unfold Rdiv. rewrite Rmult_assoc, Rinv_l by nra. nra. }
  lra.
Qed.

(** X12: for [-10 <= x <= 10], [err] and [Phi] return at [x] and at
    [-x]; [err] is odd there and [Phi(-x) = 1 - Phi(x)]. *)
Theorem err_odd_Phi_complement (x : R) :
  -10 <= x <= 10 ->
  exists e p,
    err x = Ok e /\ err (- x) = Ok (- e) /\
    Phi x = Ok p /\ Phi (- x) = Ok (1 - p).
Proof.
  intros _. exists (Spec.erf x), (Spec.Phi x).
  rewrite !err_ok, !Phi_ok, erf_odd, Phi_complement. repeat split.
Qed.

Lemma err_odd_Phi_complement_witness :
  -10 <= 3 / 2 <= 10 /\
  exists e p,
    err (3 / 2) = Ok e /\ err (- (3 / 2)) = Ok (- e) /\
    Phi (3 / 2) = Ok p /\ Phi (- (3 / 2)) = Ok (1 - p).
Proof.
  assert (Hx : -10 <= 3 / 2 <= 10) by lra.
  split; [exact Hx |]. exact (err_odd_Phi_complement (3 / 2) Hx).
Defined.

(** X13: on [-1, 1] the value of [Phi] lies strictly between 0 and 1,
    at most one half left of the origin and at least one half right of it. *)
Theorem Phi_range_unit (c : R) :
  -1 <= c <= 1 ->
  exists p,
    Phi c = Ok p /\ 0 < p < 1 /\
    (c <= 0 -> p <= 1 / 2) /\ (0 <= c -> 1 / 2 <= p).
Proof.
  intros [Hlo Hhi]. exists (Spec.Phi c). split; [apply Phi_ok |].
  assert (Hneg : forall y, -1 <= y <= 0 -> 0 < Spec.Phi y <= 1 / 2).
  { intros y [Hy1 Hy0]. split.
    - pose proof (Phi_upper_unit (- y)) as Hu.
      rewrite Phi_complement in Hu. specialize (Hu ltac:(lra)). lra.
    - apply Phi_le_half; nra. }
  assert (Hpos : forall y, 0 <= y <= 1 -> 1 / 2 <= Spec.Phi y < 1).
  { intros y [Hy0 Hy1]. split.
    - pose proof (Hneg (- y)) as Hn. rewrite Phi_complement in Hn.
      specialize (Hn ltac:(lra)). lra.
    - apply Phi_upper_unit. lra. }
  destruct (Rle_lt_dec c 0) as [Hc | Hc].
  - pose proof (Hneg c ltac:(lra)). repeat split; try lra.
    intros Hc'. assert (c = 0) as -> by lra. apply Hpos. lra.
  - pose proof (Hpos c ltac:(lra)). repeat split; lra.
Qed.

Lemma Phi_range_unit_witness :
  -1 <= 0 <= 1 /\ exists p, Phi 0 = Ok p /\ 0 < p < 1.
Proof.
  assert (H : -1 <= 0 <= 1) by lra.
  split; [exact H |].
  destruct (Phi_range_unit 0 H) as (p & Hp & Hr & _).
  exists p. split; assumption.
Defined.

Lemma tail_nonzero_near_origin (c : R) :
  -2 <= c <= 1 -> 1 - Spec.Phi c <> 0.
Proof.
  intros [Hlo Hhi]. destruct (Rle_lt_dec c 0) as [Hc | Hc].
  - pose proof (Phi_le_half c Hc ltac:(nra)). lra.
  - pose proof (Phi_upper_unit c ltac:(lra)). lra.
Qed.

(** X14: for a truncation point in [-2, 1] the tuning step returns a
    positive rate and a positive constant, and on draws from [0,1) the whole
    call raises nothing. *)
Theorem sampler_safe_range (n : Z) (c : R) (rng : list R) :
  -2 <= c <= 1 ->
  Forall unit_draw rng ->
  (exists lambda_0 const,
      tune c = Ok (lambda_0, const) /\ 0 < lambda_0 /\ 0 < const) /\
  forall e, truncated_gaussian_sampler n c rng <> Raises e.
Proof.
  intros Hc Hdraws. pose proof (tail_nonzero_near_origin c Hc) as Htail.
  split.
  - exists (Spec.rate c), (Spec.normalizingConstant c).
    split; [apply tune_ok; exact Htail |].
    split; [apply rate_pos | apply normalizingConstant_pos; exact Htail].
  - intros e. unfold truncated_gaussian_sampler. rewrite (tune_ok c Htail).
    apply rejection_loop_no_exception; [apply rate_pos | exact Hdraws].
Qed.

Lemma sampler_safe_range_witness :
  -2 <= -3 / 2 <= 1 /\ Forall unit_draw [1 / 2; 1 / 3] /\
  forall e, truncated_gaussian_sampler 1 (-3 / 2) [1 / 2; 1 / 3] <> Raises e.
Proof.
  assert (Hc : -2 <= -3 / 2 <= 1) by lra.
  assert (Hdraws : Forall unit_draw [1 / 2; 1 / 3])
    by (repeat constructor; unfold unit_draw; lra).
  split; [exact Hc |]. split; [exact Hdraws |].
  exact (proj2 (sampler_safe_range 1 (-3 / 2) [1 / 2; 1 / 3] Hc Hdraws)).
Defined.


(** ** scripts/solve_for_lambda.py *)

Lemma rejection_func_ok (g : solve_for_lambda.globals) (lambda0 : R) :
  solve_for_lambda.rejection_func g lambda0 =
  Ok (acceptance_rate (solve_for_lambda.c g) (solve_for_lambda.Phi_c g) lambda0).
Proof.
  unfold solve_for_lambda.rejection_func, float_pow.
  cbn [math m_sqrt m_pi m_exp].
  rewrite math_sqrt_ok by (pose proof PI_RGT_0; lra). cbn [bind].
  rewrite truediv_ok by lra. cbn [bind].
  rewrite truediv_ok; [reflexivity |].
  pose proof (exp_pos ((lambda0 ^ 2 - 2 * lambda0 * solve_for_lambda.c g) / 2)).
  lra.
Qed.

(** The objective peaks at the rate of line 36 of the sampler. *)
Lemma acceptance_rate_peak (c P l : R) :
  P <= 1 -> acceptance_rate c P l <= acceptance_rate c P (Spec.rate c).
Proof.
  intros HP. unfold acceptance_rate.
  pose proof (rate_pos c) as Hr. pose proof (rate_quadratic c) as Hq.
  set (r := Spec.rate c) in *.
  pose proof sqrt_2PI_pos as Hs.
  pose proof (exp_pos ((l ^ 2 - 2 * l * c) / 2)) as He.
  pose proof (exp_pos ((r ^ 2 - 2 * r * c) / 2)) as Her.
  assert (Hcore : l * exp (- ((l ^ 2 - 2 * l * c) / 2))
                  <= r * exp (- ((r ^ 2 - 2 * r * c) / 2))).
  { pose proof (exp_pos (- ((l ^ 2 - 2 * l * c) / 2))) as Hp.
    pose proof (exp_pos (- ((r ^ 2 - 2 * r * c) / 2))) as Hpr.
    destruct (Rle_lt_dec l 0) as [Hl | Hl]; [nra |].
    set (t := (l ^ 2 - r ^ 2) / 2 - c * (l - r)).
    assert (Ht : l <= r * exp t).
    { pose proof (exp_ineq1_le t) as Hi.
      assert (Hrc : r - c = / r).
      { apply (Rmult_eq_reg_r r); [| lra]. rewrite Rinv_l by lra. nra. }
      assert (Hd : 1 + (l - r) * / r <= 1 + t).
      { unfold t.
        replace ((l ^ 2 - r ^ 2) / 2 - c * (l - r))
          with ((l - r) * (r - c) + (l - r) ^ 2 / 2) by field.
        rewrite Hrc. pose proof (pow2_ge_0 (l - r)). lra. }
      replace l with (r * (1 + (l - r) * / r)) at 1 by (field; lra).
      apply Rmult_le_compat_l; lra. }
    assert (Hsplit : exp (- ((r ^ 2 - 2 * r * c) / 2))
                     = exp t * exp (- ((l ^ 2 - 2 * l * c) / 2))).
    { rewrite <- exp_plus. f_equal. unfold t. field. }
    rewrite Hsplit, <- Rmult_assoc. apply Rmult_le_compat_r; lra. }
  replace (sqrt (2 * PI) * l * (1 - P) / exp ((l ^ 2 - 2 * l * c) / 2))
    with (sqrt (2 * PI) * (1 - P) * (l * exp (- ((l ^ 2 - 2 * l * c) / 2))))
    by (rewrite exp_Ropp; field; lra).
  replace (sqrt (2 * PI) * r * (1 - P) / exp ((r ^ 2 - 2 * r * c) / 2))
    with (sqrt (2 * PI) * (1 - P) * (r * exp (- ((r ^ 2 - 2 * r * c) / 2))))
    by (rewrite exp_Ropp; field; lra).
  apply Rmult_le_compat_l; [nra | exact Hcore].
Qed.



(** X16: with the globals set to [c] and [Phi(c)], [rejection_func] at
    the tuned rate times the sampler's constant is the tail mass
    [1 - Phi(c)]: the objective of the plotting script is the reciprocal of
    the bound factor [b]. *)
Theorem rejection_func_is_inverse_bound (c lambda_0 const : R) :
  tune c = Ok (lambda_0, const) ->
  exists Phi_c v,
    Phi c = Ok Phi_c /\
    solve_for_lambda.rejection_func
      {| solve_for_lambda.c := c; solve_for_lambda.Phi_c := Phi_c |} lambda_0
    = Ok v /\
    v * const = 1 - Phi_c.
Proof.
  intros Htune. apply tune_inv in Htune. destruct Htune as (Htail & -> & ->).
  exists (Spec.Phi c). eexists. split; [apply Phi_ok |].
  split; [apply rejection_func_ok |].
  cbn [solve_for_lambda.c solve_for_lambda.Phi_c].
  unfold acceptance_rate, Spec.normalizingConstant, Spec.b.
  pose proof (rate_pos c) as Hr. pose proof sqrt_2PI_pos as Hs.
  pose proof (exp_pos ((Spec.rate c ^ 2 - 2 * Spec.rate c * c) / 2)) as He.
  field. repeat split; lra.
Qed.

Lemma rejection_func_is_inverse_bound_witness :
  tune 0 = Ok (1, Spec.normalizingConstant 0) /\
  exists Phi_c v,
    Phi 0 = Ok Phi_c /\
    solve_for_lambda.rejection_func
      {| solve_for_lambda.c := 0; solve_for_lambda.Phi_c := Phi_c |} 1
    = Ok v /\
    v * Spec.normalizingConstant 0 = 1 - Phi_c.
Proof.
  split; [exact tune_0 |].
  exact (rejection_func_is_inverse_bound 0 1 (Spec.normalizingConstant 0)
           tune_0).
Defined.


(** ** The sweep of solve_for_lambda.py *)

Lemma ceil_200 : ceil 200 = 200%Z.
Proof.
  unfold ceil. rewrite <- (tech_up (- (200)) (-199)); [reflexivity | lra | lra].
Qed.

Lemma lambda0_grid :
  solve_for_lambda.lambda0 = map (fun i => INR i / 100) (seq 0 200).
Proof.
  unfold solve_for_lambda.lambda0, np_arange.
  replace ((2 - 0) / 0.01) with 200 by lra. rewrite ceil_200.
  change (Z.to_nat 200) with 200%nat.
  apply map_ext. intros i. lra.
Qed.

Lemma for_each_append {A B : Type} (f : B -> res A) (g : B -> A) :
  (forall i, f i = Ok (g i)) ->
  forall items acc,
    for_each (fun acc i => v <- f i ;; Ok (acc ++ [v])) items acc =
    Ok (acc ++ map g items).
Proof.
  intros Hf items. induction items as [| i items IH]; intros acc;
    cbn [for_each map].
  - rewrite app_nil_r. reflexivity.
  - rewrite Hf. cbn [bind]. rewrite IH, <- app_assoc. reflexivity.
Qed.

Lemma acceptance_rate_nonneg (c P l : R) :
  P <= 1 -> 0 <= l -> 0 <= acceptance_rate c P l.
Proof.
  intros HP Hl. unfold acceptance_rate.
  pose proof sqrt_2PI_pos as Hs.
  pose proof (exp_pos ((l ^ 2 - 2 * l * c) / 2)) as He.
  apply Rmult_le_pos.
  - apply Rmult_le_pos; [| lra]. apply Rmult_le_pos; lra.
  - left. apply Rinv_0_lt_compat. exact He.
Qed.

(** X17: the sweep of lines 12-16 fills [rf_axis] with 200 values, one
    per grid point of [lambda0]; each lies between 0 and the value at the
    tuned rate; the first is 0, and with [c = 0] the largest is the one at
    index 100, the grid point [lambda0 = 1]. *)
Theorem rf_axis_sweep (g : solve_for_lambda.globals) :
  solve_for_lambda.Phi_c g <= 1 ->
  exists axis l vmax,
    solve_for_lambda.rf_axis g = Ok axis /\
    length axis = length solve_for_lambda.lambda0 /\
    length axis = 200%nat /\
    tuned_rate (solve_for_lambda.c g) = Ok l /\
    solve_for_lambda.rejection_func g l = Ok vmax /\
    Forall (fun v => 0 <= v <= vmax) axis /\
    nth_error axis 0 = Some 0 /\
    (solve_for_lambda.c g = 0 -> nth_error axis 100 = Some vmax).
Proof.
  intros HP.
  set (f := acceptance_rate (solve_for_lambda.c g) (solve_for_lambda.Phi_c g)).
  exists (map f solve_for_lambda.lambda0),
    (Spec.rate (solve_for_lambda.c g)),
    (f (Spec.rate (solve_for_lambda.c g))).
  split.
  { unfold solve_for_lambda.rf_axis.
    rewrite (for_each_append (solve_for_lambda.rejection_func g) f)
      by (intros i; apply rejection_func_ok).
    reflexivity. }
  split; [apply length_map |].
  split; [rewrite length_map, lambda0_grid, length_map, length_seq; reflexivity |].
  split; [apply tuned_rate_ok |]. split; [apply rejection_func_ok |].
  split; [| split].
  - apply Forall_forall. intros v Hv. apply in_map_iff in Hv.
    destruct Hv as (l & <- & Hl). rewrite lambda0_grid in Hl.
    apply in_map_iff in Hl. destruct Hl as (i & <- & _). split.
    + apply acceptance_rate_nonneg; [exact HP |].
      pose proof (pos_INR i). lra.
    + apply acceptance_rate_peak. exact HP.
  - rewrite lambda0_grid, !nth_error_map, nth_error_seq. cbn.
    f_equal. unfold f, acceptance_rate. rewrite Rdiv_0_l. unfold Rdiv. ring.
  - intros Hc. rewrite lambda0_grid, !nth_error_map, nth_error_seq.
    change (100 <? 200)%nat with true. cbn [option_map Nat.add].
    f_equal. f_equal. rewrite Hc, rate_0, INR_IZR_INZ.
    change (Z.of_nat 100) with 100%Z. lra.
Qed.

Lemma rf_axis_sweep_witness :
  solve_for_lambda.Phi_c solve_for_lambda.script_globals <= 1 /\
  exists axis,
    solve_for_lambda.rf_axis solve_for_lambda.script_globals = Ok axis /\
    length axis = 200%nat.
Proof.
  assert (HP : solve_for_lambda.Phi_c solve_for_lambda.script_globals <= 1)
    by (cbn; lra).
  split; [exact HP |].
  destruct (rf_axis_sweep solve_for_lambda.script_globals HP)
    as (axis & l & vmax & Hrun & _ & Hlen & _).
  exists axis. split; assumption.
Defined.

(** ** [inverse_exp], [expo] and [phi] *)

(** X18: [inverse_exp] inverts the exponential distribution function
    [1 - expo(x,l)/l]: the density at the candidate of [u] is [l*(1-u)], and
    the candidate of [1 - expo(y,l)/l] is [y]. *)
Theorem inverse_exp_expo_roundtrip (u lambda_0 : R) :
  u < 1 -> lambda_0 <> 0 ->
  exists x,
    inverse_exp u lambda_0 = Ok x /\
    expo x lambda_0 = lambda_0 * (1 - u) /\
    forall y, inverse_exp (1 - expo y lambda_0 / lambda_0) lambda_0 = Ok y.
Proof.
  intros Hu Hl. exists (candidate u lambda_0).
  split; [apply inverse_exp_ok; assumption |]. split.
  - unfold expo, candidate. cbn [math m_exp].
    replace (- lambda_0 * (-1 * ln (1 - u) / lambda_0)) with (ln (1 - u))
      by (field; exact Hl).
    rewrite exp_ln by lra. reflexivity.
  - intros y. unfold expo. cbn [math m_exp].
    pose proof (exp_pos (- lambda_0 * y)) as He.
    replace (1 - lambda_0 * exp (- lambda_0 * y) / lambda_0)
      with (1 - exp (- lambda_0 * y)) by (field; exact Hl).
    rewrite inverse_exp_ok by lra.
    unfold candidate. f_equal.
    replace (1 - (1 - exp (- lambda_0 * y))) with (exp (- lambda_0 * y)) by ring.
    rewrite ln_exp. field. exact Hl.
Qed.

Lemma inverse_exp_expo_roundtrip_witness :
  1 / 2 < 1 /\ 2 <> 0 /\
  exists x, inverse_exp (1 / 2) 2 = Ok x /\ expo x 2 = 2 * (1 - 1 / 2).
Proof.
  assert (Hu : 1 / 2 < 1) by lra. assert (Hl : 2 <> 0) by lra.
  split; [exact Hu |]. split; [exact Hl |].
  destruct (inverse_exp_expo_roundtrip (1 / 2) 2 Hu Hl) as (x & Hx & He & _).
  exists x. split; assumption.
Defined.

(** X19: for a positive rate the candidate grows strictly with the
    draw on [0,1), starting from 0 at [u = 0]. *)
Theorem candidate_monotone (u v lambda_0 : R) :
  0 < lambda_0 -> 0 <= u -> u < v -> v < 1 ->
  exists x y,
    inverse_exp u lambda_0 = Ok x /\ inverse_exp v lambda_0 = Ok y /\
    0 <= x < y /\ inverse_exp 0 lambda_0 = Ok 0.
Proof.
  intros Hl Hu Huv Hv. exists (candidate u lambda_0), (candidate v lambda_0).
  rewrite !inverse_exp_ok by lra. repeat split.
  - apply candidate_nonneg; [unfold unit_draw; lra | exact Hl].
  - unfold candidate.
    assert (Hln : ln (1 - v) < ln (1 - u)) by (apply ln_increasing; lra).
    assert (Hi : 0 < / lambda_0) by (apply Rinv_0_lt_compat; exact Hl).
    unfold Rdiv. nra.
  - f_equal. unfold candidate. rewrite Rminus_0_r, ln_1. field. lra.
Qed.

Lemma candidate_monotone_witness :
  0 < 1 /\ 0 <= 1 / 4 /\ 1 / 4 < 1 / 2 /\ 1 / 2 < 1 /\
  exists x y,
    inverse_exp (1 / 4) 1 = Ok x /\ inverse_exp (1 / 2) 1 = Ok y /\ 0 <= x < y.
Proof.
  assert (H1 : 0 < 1) by lra. assert (H2 : 0 <= 1 / 4) by lra.
  assert (H3 : 1 / 4 < 1 / 2) by lra. assert (H4 : 1 / 2 < 1) by lra.
  repeat (split; [assumption |]).
  destruct (candidate_monotone (1 / 4) (1 / 2) 1 H1 H2 H3 H4)
    as (x & y & Hx & Hy & Hxy & _).
  exists x, y. repeat split; try assumption; apply Hxy.
Defined.



(** ** Where the tuning step divides by zero *)

Lemma series_continuous (N : nat) :
  continuity
    (fun z => sum_f_R0
       (fun i => (-1) ^ i * z ^ (2 * i + 1) / (INR (fact i) * INR (2 * i + 1)))
       N).
Proof.
  assert (Hterm : forall i,
    continuity
      (fun z => (-1) ^ i * z ^ (2 * i + 1) / (INR (fact i) * INR (2 * i + 1)))).
  { intros i x.
    apply (continuity_pt_mult
             (fun z => (-1) ^ i * z ^ (2 * i + 1))
             (fun _ => / (INR (fact i) * INR (2 * i + 1)))).
    - apply (continuity_pt_mult (fun _ => (-1) ^ i)
               (fun z => z ^ (2 * i + 1))).
      + apply continuity_pt_const. intros a b. reflexivity.
      + apply derivable_continuous_pt. apply derivable_pt_pow.
    - apply continuity_pt_const. intros a b. reflexivity. }
  induction N as [| N IH]; cbn [sum_f_R0].
  - apply Hterm.
  - intros x.
    apply (continuity_pt_plus
             (fun z => sum_f_R0
                (fun i => (-1) ^ i * z ^ (2 * i + 1)
                          / (INR (fact i) * INR (2 * i + 1))) N)
             (fun z => (-1) ^ S N * z ^ (2 * S N + 1)
                       / (INR (fact (S N)) * INR (2 * S N + 1)))).
    + apply IH.
    + apply Hterm.
Qed.

Lemma Phi_continuous : continuity (fun x => Spec.Phi x - 1).
Proof.
  intros x. unfold Spec.Phi, Spec.erf.
  apply (continuity_pt_minus
           (fun x => 0.5 * (1 + 2 / sqrt PI *
              sum_f_R0 (fun i => (-1) ^ i * (x / sqrt 2) ^ (2 * i + 1)
                                 / (INR (fact i) * INR (2 * i + 1))) 124))
           (fun _ => 1)).
  2:{ apply continuity_pt_const. intros a b. reflexivity. }
  apply (continuity_pt_mult (fun _ => 0.5)
           (fun x => 1 + 2 / sqrt PI *
              sum_f_R0 (fun i => (-1) ^ i * (x / sqrt 2) ^ (2 * i + 1)
                                 / (INR (fact i) * INR (2 * i + 1))) 124)).
  { apply continuity_pt_const. intros a b. reflexivity. }
  apply (continuity_pt_plus (fun _ => 1)
           (fun x => 2 / sqrt PI *
              sum_f_R0 (fun i => (-1) ^ i * (x / sqrt 2) ^ (2 * i + 1)
                                 / (INR (fact i) * INR (2 * i + 1))) 124)).
  { apply continuity_pt_const. intros a b. reflexivity. }
  apply (continuity_pt_mult (fun _ => 2 / sqrt PI)
           (fun x =>
              sum_f_R0 (fun i => (-1) ^ i * (x / sqrt 2) ^ (2 * i + 1)
                                 / (INR (fact i) * INR (2 * i + 1))) 124)).
  { apply continuity_pt_const. intros a b. reflexivity. }
  apply (continuity_pt_comp (fun x => x / sqrt 2)
           (fun z =>
              sum_f_R0 (fun i => (-1) ^ i * z ^ (2 * i + 1)
                                 / (INR (fact i) * INR (2 * i + 1))) 124)).
  - apply (continuity_pt_mult (fun x => x) (fun _ => / sqrt 2)).
    + apply derivable_continuous_pt. apply derivable_pt_id.
    + apply continuity_pt_const. intros a b. reflexivity.
  - apply series_continuous.
Qed.

Lemma series_weight_increasing (q : R) (i : nat) :
  3 * (INR i + 1) <= q -> series_weight q i <= series_weight q (S i).
Proof.
  intros Hq. unfold series_weight.
  assert (HF : 0 < INR (fact i)) by apply INR_fact_lt_0.
  assert (HI : 0 <= INR i) by apply pos_INR.
  assert (Hq0 : 0 <= q) by lra.
  assert (Hp : 0 <= q ^ i) by (apply pow_le; exact Hq0).
  rewrite fact_simpl. rewrite !mult_INR, !plus_INR, !mult_INR, !(S_INR i).
  change (INR 2) with 2. change (INR 1) with 1.
  set (I := INR i) in *. set (F := INR (fact i)) in *. set (p := q ^ i) in *.
  cbn [pow]. fold p.
  replace (q * p / ((I + 1) * F * (2 * (I + 1) + 1)))
    with (p / (F * (2 * I + 1)) * (q * (2 * I + 1) / ((I + 1) * (2 * I + 3))))
    by (field; repeat split; nra).
  rewrite <- (Rmult_1_r (p / (F * (2 * I + 1)))) at 1.
  apply Rmult_le_compat_l.
  - apply Rmult_le_pos; [exact Hp |]. left. apply Rinv_0_lt_compat. nra.
  - apply (Rmult_le_reg_r ((I + 1) * (2 * I + 3))); [nra |].
    unfold Rdiv. rewrite Rmult_assoc, Rinv_l by nra. nra.
Qed.

Lemma alternating_sum_growing (a : nat -> R) (m : nat) :
  (forall i, (i < 2 * m)%nat -> a i <= a (S i)) ->
  a 0%nat <= sum_f_R0 (fun i => (-1) ^ i * a i) (2 * m).
Proof.
  induction m as [| m IH]; intros Hinc.
  - simpl. lra.
  - replace (2 * S m)%nat with (S (S (2 * m))) by lia.
    cbn [sum_f_R0]. rewrite pow_1_odd.
    replace (S (S (2 * m))) with (2 * S m)%nat by lia. rewrite pow_1_even.
    replace (2 * S m)%nat with (S (S (2 * m))) by lia.
    pose proof (Hinc (S (2 * m)) ltac:(lia)).
    assert (a 0%nat <= sum_f_R0 (fun i => (-1) ^ i * a i) (2 * m))
      by (apply IH; intros i Hi; apply Hinc; lia).
    lra.
Qed.

Lemma erf_at_20 : 20 <= Spec.erf 20.
Proof.
  unfold Spec.erf. rewrite series_factor.
  assert (Hsum : 1 <= sum_f_R0 (fun i => (-1) ^ i * series_weight (20 ^ 2) i)
                        124).
  { replace 1 with (series_weight (20 ^ 2) 0)
      by (unfold series_weight; simpl; field).
    change 124%nat with (2 * 62)%nat. apply alternating_sum_growing.
    intros i Hi. apply series_weight_increasing.
    assert (Hle : INR i <= 123) .
    { replace 123 with (INR 123) by (rewrite INR_IZR_INZ; reflexivity).
      apply le_INR. lia. }
    lra. }
  pose proof sqrt_PI_pos as Hp.
  assert (Hpp : sqrt PI * sqrt PI = PI)
    by (apply sqrt_sqrt; pose proof PI_RGT_0; lra).
  pose proof PI_4 as H4.
  assert (Hk : 1 <= 2 / sqrt PI).
  { apply (Rmult_le_reg_r (sqrt PI)); [exact Hp |].
    unfold Rdiv. rewrite Rmult_assoc, Rinv_l by lra. nra. }
  set (S := sum_f_R0 _ 124) in *. set (K := 2 / sqrt PI) in *. nra.
Qed.

Lemma Phi_reaches_one : exists c, 0 < c /\ Spec.Phi c = 1.
Proof.
  pose proof sqrt_2_pos as H2.
  assert (Hhigh : 0 < Spec.Phi (20 * sqrt 2) - 1).
  { unfold Spec.Phi.
    replace (20 * sqrt 2 / sqrt 2) with 20 by (field; lra).
    pose proof erf_at_20. lra. }
  assert (Hlow : Spec.Phi 0 - 1 < 0) by (rewrite Phi_0; lra).
  destruct (IVT (fun x => Spec.Phi x - 1) 0 (20 * sqrt 2) Phi_continuous
              ltac:(lra) Hlow Hhigh) as (c & [Hc0 Hc1] & Hroot).
  exists c. split; [| lra].
  destruct (Req_dec_T c 0) as [-> | Hne]; [| lra].
  rewrite Phi_0 in Hroot. lra.
Qed.





(** X21: in exact arithmetic the 125-term [Phi] reaches 1 at some
    positive truncation point; there the tuning step divides by zero and every
    call raises [ZeroDivisionError], whatever [n] and the draws. *)
Theorem tune_division_by_zero :
  exists c,
    0 < c /\ Phi c = Ok 1 /\ tune c = Raise ZeroDivisionError /\
    forall n rng, truncated_gaussian_sampler n c rng = Raises ZeroDivisionError.
Proof.
  destruct Phi_reaches_one as (c & Hc & Hone).
  assert (Hz : 1 - Spec.Phi c = 0) by lra.
  exists c. split; [exact Hc |]. split; [rewrite Phi_ok, Hone; reflexivity |].
  split; [exact (tune_blow_up c Hz) |].
  intros n rng. unfold truncated_gaussian_sampler.
  rewrite (tune_blow_up c Hz). reflexivity.
Qed.
